(** * Events.hpp: a priority-bucketed registry of callbacks

    A shallow embedding of [EventHandle], [Internal::Call] and [Event] of
    Events.hpp, and the properties of registration, deregistration,
    invocation and copy assignment proved about them.

    Conventions of the embedding.
    - Pointers and [uintptr_t] are the integers of their bit pattern (a [Z]);
      [nullptr] is [0].
    - [int16_t] is a [Z]; the only arithmetic the source does on one is
      [priority_++], whose conversion back to 16 bits is written out.
    - [assert] is taken as in a build without [NDEBUG]: a failed assertion
      ends the run, which is the result [Fatal] naming the assertion.
    - A hooked callable is opaque: invoking a [Call] is recorded as the
      effect "this callable was called with these arguments, on this
      object", and [Invoke] returns the effects in the order it made them.
    - [std::map] is its sequence of (key, value) pairs in iteration order,
      searched and updated at the first key that is not below the one looked
      for; [std::unordered_set] is the sequence of its elements in iteration
      order. Erasing an element keeps the others in place, as the standard
      has it. Where an inserted element comes, and in which order a copy
      iterates, the standard leaves open: the model puts a new element last
      and copies a set as it is, and no statement below rests on that: what
      is said of the calls of a bucket after an insertion or a copy is said
      up to their order, or call by call. *)

From Stdlib Require Import ZArith List Bool Lia Sorted Permutation.
Import ListNotations.
Local Open Scope Z_scope.

(** ** Machine integers *)

Definition uintptr_t := Z.
Definition nullptr : uintptr_t := 0.

(** Conversion of an [int] to [int16_t]: modulo 2^16, into [-32768, 32767]. *)
Definition int16_t (z : Z) : Z := (z + 32768) mod 65536 - 32768.

Definition INT16_MAX : Z := 32767.
Definition INT16_MIN : Z := -32768.

(** ** EventHandle *)

Module Identifier.
(** [enum class Identifier : uint64_t]: a value of the underlying type. *)
Definition t := Z.
Definition Invalid : t := 0.
Definition Function : t := 1.
Definition Lambda : t := 2.
Definition StdFunction : t := 3.
Definition MemberFunction : t := 4.
End Identifier.

Module EventHandle.
Definition Priority := Z.

Record t := make {
  priority : Priority;
  identifier : Identifier.t;
  function : uintptr_t
}.

(** [POINTER_VALUE_CAST]: the bit pattern of the argument. *)
Definition POINTER_VALUE_CAST (p : uintptr_t) : uintptr_t := p.

(** The default-constructed handle. *)
Definition empty : t := make 0 Identifier.Invalid 0.

Definition Reset (h : t) : t := make 0 Identifier.Invalid 0.

(** [operator bool]. *)
Definition to_bool (h : t) : bool :=
  negb (identifier h =? Identifier.Invalid) && negb (function h =? 0).

(** [operator<]. *)
Definition lt (a other : t) : bool :=
  (priority a <? priority other) &&
  (identifier a <? identifier other) &&
  (function a <? function other).

(** [operator==]. *)
Definition eqb (a other : t) : bool :=
  (priority a =? priority other) &&
  (identifier a =? identifier other) &&
  (function a =? function other).

Definition GetPriority (h : t) : Priority := priority h.
Definition GetIdentifier (h : t) : Identifier.t := identifier h.
Definition GetFunction (h : t) : uintptr_t := function h.

(** The order on (priority, identifier, function) that compares the first
    component on which two handles differ. *)
Definition lex_lt (a b : t) : Prop :=
  priority a < priority b \/
  (priority a = priority b /\
   (identifier a < identifier b \/
    (identifier a = identifier b /\ function a < function b))).
End EventHandle.

(** ** Internal::Call *)

Module Internal.
(** What the stored [std::function<void(void*, Args...)>] captured. *)
Inductive Thunk : Type :=
| thunk_std_function (func : uintptr_t)   (* func(args...) *)
| thunk_callable (func_ptr : uintptr_t)   (* func_ptr(args...) *)
| thunk_member (func_ptr : uintptr_t).    (* (((C* ) class_addr)->*func_ptr)(args...) *)

Record Call := mkCall {
  handle : EventHandle.t;
  class_ptr : uintptr_t;
  function : Thunk
}.

(** The three constructors; only the last one sets [class_ptr]. *)
Definition Call_std_function (func : uintptr_t) (h : EventHandle.t) : Call :=
  mkCall h nullptr (thunk_std_function func).
Definition Call_callable (func_ptr : uintptr_t) (h : EventHandle.t) : Call :=
  mkCall h nullptr (thunk_callable func_ptr).
Definition Call_member (class_ptr func_ptr : uintptr_t) (h : EventHandle.t) : Call :=
  mkCall h class_ptr (thunk_member func_ptr).

(** [operator==(const Call&)] and [operator==(const EventHandle&)]. *)
Definition eqb (c other : Call) : bool := EventHandle.eqb (handle c) (handle other).
Definition eqb_handle (c : Call) (other : EventHandle.t) : bool :=
  EventHandle.eqb (handle c) other.

(** What one invocation of a callable is seen to do. *)
Inductive Effect (Args : Type) : Type :=
| called (callee : uintptr_t) (args : Args)
| called_on (object : uintptr_t) (member : uintptr_t) (args : Args).
Arguments called {Args}.
Arguments called_on {Args}.

(** [operator()]: [function(class_ptr, args...)]. *)
Definition invoke {Args : Type} (c : Call) (args : Args) : Effect Args :=
  match function c with
  | thunk_std_function func => called func args
  | thunk_callable func_ptr => called func_ptr args
  | thunk_member func_ptr => called_on (class_ptr c) func_ptr args
  end.
End Internal.

Import Internal.

(** ** Assertions *)

Inductive Assertion : Type :=
| assert_initialized   (* AssertInitialized *)
| assert_was_added     (* USet::emplace_back *)
| assert_call_found    (* RemoveCall *)
| assert_unhooked.     (* UnhookClass *)

Inductive result (A : Type) : Type :=
| Ok (a : A)
| Fatal (failed : Assertion).
Arguments Ok {A}.
Arguments Fatal {A}.

Definition bind {A B : Type} (r : result A) (k : A -> result B) : result B :=
  match r with
  | Ok a => k a
  | Fatal f => Fatal f
  end.

Notation "x <- r ;; k" := (bind r (fun x => k))
  (at level 61, r at next level, right associativity).

Definition assert (b : bool) (a : Assertion) : result unit :=
  if b then Ok tt else Fatal a.

Definition fatal {A : Type} (r : result A) : Prop := exists a, r = Fatal a.

(** ** USet: the unordered set of the calls of one priority *)

Module USet.
Definition t := list Call.

(** [emplace]: the set and whether the element was added; an element equal
    to one of the set (by [Call::operator==]) is not added. Where the new
    element comes in the iteration is the library's choice; here it is put
    last. *)
Definition emplace (c : Call) (s : t) : t * bool :=
  if existsb (fun c' => Internal.eqb c' c) s then (s, false) else (s ++ [c], true).

Definition emplace_back (c : Call) (s : t) : result t :=
  let '(s', was_added) := emplace c s in
  _ <- assert was_added assert_was_added ;;
  Ok s'.

(** [std::find(begin, end, handle)] followed by [erase]: the set without
    the first element equal to [handle], [None] when [find] returns
    [end()]. *)
Fixpoint find_erase (h : EventHandle.t) (s : t) : option t :=
  match s with
  | [] => None
  | c :: s' =>
      if Internal.eqb_handle c h then Some s'
      else option_map (cons c) (find_erase h s')
  end.
End USet.

(** ** std::map<Priority, USet> *)

Module CallMap.
Definition t := list (EventHandle.Priority * USet.t).

(** The value [operator[]] refers to: the one stored under [k], or the
    empty set it inserts. *)
Fixpoint at_key (k : Z) (m : t) : USet.t :=
  match m with
  | [] => []
  | (k', s) :: m' =>
      if k <? k' then [] else if k =? k' then s else at_key k m'
  end.

(** [m[k] = s]. *)
Fixpoint set (k : Z) (s : USet.t) (m : t) : t :=
  match m with
  | [] => [(k, s)]
  | (k', s') :: m' =>
      if k <? k' then (k, s) :: m
      else if k =? k' then (k, s) :: m'
      else (k', s') :: set k s m'
  end.
End CallMap.

(** ** Event *)

Record Event := mkEvent {
  boundTo : uintptr_t;            (* void* boundTo = nullptr *)
  callList_ : CallMap.t;          (* std::map<Priority, USet> *)
  priority_ : EventHandle.Priority;  (* Priority priority_ = 0 *)
  initialized_ : bool             (* bool initialized_ = false *)
}.

(** What can be hooked, by overload of [Hook]. A callable is known by the
    integer [POINTER_VALUE_CAST] makes of it: the address of a function or
    of a lambda object, the first word of a [std::function] object. *)
Inductive Callable : Type :=
| std_function (func : uintptr_t)           (* Hook(std::function<Signature> func) *)
| lambda (lambda_addr : uintptr_t)          (* Hook(Fn&& lambda), the address &lambda *)
| function_pointer (func_ptr : uintptr_t)   (* Hook(Fn* func_ptr) *)
| member_function (class_ptr func_ptr : uintptr_t).  (* Hook(C* class_ptr, Fn func_ptr) *)

(** The calls of a registry in the order [Invoke] goes through them. *)
Definition Calls (e : Event) : list Call := flat_map snd (callList_ e).

(** The effect of calling a hooked callable with [args]. *)
Definition effect_of {Args : Type} (f : Callable) (args : Args) : Effect Args :=
  match f with
  | std_function func => called func args
  | lambda lambda_addr => called lambda_addr args
  | function_pointer func_ptr => called func_ptr args
  | member_function class_ptr func_ptr => called_on class_ptr func_ptr args
  end.

Section Event.

(** The template parameter [KeepOrder]. *)
Variable KeepOrder : bool.

Definition Ordered : bool := KeepOrder.

(** [Event() = default]. *)
Definition Event_default : Event := mkEvent nullptr [] 0 false.

(** [BindTo], for a class pointer and for [nullptr] alike. *)
Definition BindTo (bindTo : uintptr_t) (e : Event) : Event :=
  mkEvent bindTo (callList_ e) (priority_ e) true.

(** [Event(std::nullptr_t)] and [Event(Bind* bindTo)]. *)
Definition Event_bound (bindTo : uintptr_t) : Event := BindTo bindTo Event_default.

Definition AssertInitialized (e : Event) : result unit :=
  assert (initialized_ e) assert_initialized.

(** [Ordered ? priority_++ : PRIORITY]: the priority, and the registry with
    the counter it leaves. *)
Definition take_priority (PRIORITY : EventHandle.Priority) (e : Event)
  : EventHandle.Priority * Event :=
  if Ordered
  then (priority_ e,
        mkEvent (boundTo e) (callList_ e) (int16_t (priority_ e + 1)) (initialized_ e))
  else (PRIORITY, e).

(** [callList_[priority].emplace_back(call)]. *)
Definition emplace_at (priority : EventHandle.Priority) (call : Call) (e : Event)
  : result Event :=
  call_list <- USet.emplace_back call (CallMap.at_key priority (callList_ e)) ;;
  Ok (mkEvent (boundTo e) (CallMap.set priority call_list (callList_ e))
              (priority_ e) (initialized_ e)).

Definition Hook_std_function (PRIORITY : EventHandle.Priority) (func : uintptr_t)
  (e : Event) : result (EventHandle.t * Event) :=
  _ <- AssertInitialized e ;;
  let '(priority, e) := take_priority PRIORITY e in
  let handle := EventHandle.make priority Identifier.StdFunction
                  (EventHandle.POINTER_VALUE_CAST func) in
  e <- emplace_at priority (Call_std_function func handle) e ;;
  Ok (handle, e).

Definition Hook_lambda (PRIORITY : EventHandle.Priority) (lambda_addr : uintptr_t)
  (e : Event) : result (EventHandle.t * Event) :=
  _ <- AssertInitialized e ;;
  let '(priority, e) := take_priority PRIORITY e in
  let handle := EventHandle.make priority Identifier.Lambda
                  (EventHandle.POINTER_VALUE_CAST lambda_addr) in
  e <- emplace_at priority (Call_callable lambda_addr handle) e ;;
  Ok (handle, e).

Definition Hook_function (PRIORITY : EventHandle.Priority) (func_ptr : uintptr_t)
  (e : Event) : result (EventHandle.t * Event) :=
  _ <- AssertInitialized e ;;
  let '(priority, e) := take_priority PRIORITY e in
  let handle := EventHandle.make priority Identifier.Function
                  (EventHandle.POINTER_VALUE_CAST func_ptr) in
  e <- emplace_at priority (Call_callable func_ptr handle) e ;;
  Ok (handle, e).

Definition Hook_member (PRIORITY : EventHandle.Priority) (class_ptr func_ptr : uintptr_t)
  (e : Event) : result (EventHandle.t * Event) :=
  _ <- AssertInitialized e ;;
  let '(priority, e) := take_priority PRIORITY e in
  let handle := EventHandle.make priority Identifier.MemberFunction
                  (EventHandle.POINTER_VALUE_CAST
                     (Z.lxor (EventHandle.POINTER_VALUE_CAST class_ptr)
                             (EventHandle.POINTER_VALUE_CAST func_ptr))) in
  e <- emplace_at priority (Call_member class_ptr func_ptr handle) e ;;
  Ok (handle, e).

(** The overload set [Hook<PRIORITY>]. *)
Definition Hook (PRIORITY : EventHandle.Priority) (f : Callable) (e : Event)
  : result (EventHandle.t * Event) :=
  match f with
  | std_function func => Hook_std_function PRIORITY func e
  | lambda lambda_addr => Hook_lambda PRIORITY lambda_addr e
  | function_pointer func_ptr => Hook_function PRIORITY func_ptr e
  | member_function class_ptr func_ptr => Hook_member PRIORITY class_ptr func_ptr e
  end.

(** A sequence of [Hook] calls, first to last, and the handles they return. *)
Fixpoint HookAll (hooks : list (EventHandle.Priority * Callable)) (e : Event)
  : result (list EventHandle.t * Event) :=
  match hooks with
  | [] => Ok ([], e)
  | (PRIORITY, f) :: rest =>
      r <- Hook PRIORITY f e ;;
      r' <- HookAll rest (snd r) ;;
      Ok (fst r :: fst r', snd r')
  end.

(** [Invoke]: the two nested loops, each call adding its effect. *)
Definition Invoke {Args : Type} (e : Event) (args : Args) : result (list (Effect Args)) :=
  _ <- AssertInitialized e ;;
  Ok (fold_left
        (fun done priority =>
           fold_left (fun done call => done ++ [invoke call args]) (snd priority) done)
        (callList_ e) []).

(** [RemoveCall]. *)
Definition RemoveCall (handle : EventHandle.t) (e : Event) : result Event :=
  _ <- AssertInitialized e ;;
  let call_list := CallMap.at_key (EventHandle.GetPriority handle) (callList_ e) in
  match USet.find_erase handle call_list with
  | None => Fatal assert_call_found
  | Some call_list' =>
      Ok (mkEvent (boundTo e)
                  (CallMap.set (EventHandle.GetPriority handle) call_list' (callList_ e))
                  (priority_ e) (initialized_ e))
  end.

(** [Unhook]. *)
Definition Unhook (handle : EventHandle.t) (e : Event) : result Event :=
  _ <- AssertInitialized e ;;
  RemoveCall handle e.

(** The inner loop of [UnhookClass] over one set: what is left of it, and
    the flag [unhooked]. *)
Fixpoint erase_identifier (id : Identifier.t) (s : USet.t) (unhooked : bool)
  : USet.t * bool :=
  match s with
  | [] => ([], unhooked)
  | it :: s' =>
      if EventHandle.GetIdentifier (handle it) =? id
      then erase_identifier id s' true
      else let '(kept, unhooked') := erase_identifier id s' unhooked in
           (it :: kept, unhooked')
  end.

(** The outer loop of [UnhookClass]. *)
Fixpoint erase_identifier_all (id : Identifier.t) (m : CallMap.t) (unhooked : bool)
  : CallMap.t * bool :=
  match m with
  | [] => ([], unhooked)
  | (k, s) :: m' =>
      let '(s', unhooked1) := erase_identifier id s unhooked in
      let '(m'', unhooked2) := erase_identifier_all id m' unhooked1 in
      ((k, s') :: m'', unhooked2)
  end.

(** [UnhookClass], from its loop on. The statement before the loop,
    [EventHandle handle(0, class_ptr, 0)], passes a class pointer where the
    constructor of [EventHandle] takes an [Identifier]; a scoped enumeration
    converts from no pointer, so the statement is ill-formed for every class
    and no program can instantiate the function. There is no value for the
    sentinel [handle] to read off the source: it is an argument here, and
    what is proved of this definition is proved of the loop for whatever
    handle stands in its place. *)
Definition UnhookClass_body (handle : EventHandle.t) (e : Event) : result Event :=
  _ <- AssertInitialized e ;;
  let '(call_list, unhooked) :=
    erase_identifier_all (EventHandle.GetIdentifier handle) (callList_ e) false in
  _ <- assert unhooked assert_unhooked ;;
  Ok (mkEvent (boundTo e) call_list (priority_ e) (initialized_ e)).

(** [CallListSize]. *)
Definition CallListSize (e : Event) : result Z :=
  _ <- AssertInitialized e ;;
  Ok (fold_left (fun size call_list => size + Z.of_nat (length (snd call_list)))
                (callList_ e) 0).

(** [Clear]. *)
Definition Clear (e : Event) : result Event :=
  _ <- AssertInitialized e ;;
  Ok (mkEvent (boundTo e)
              (map (fun call_list => (fst call_list, @nil Call)) (callList_ e))
              (priority_ e) (initialized_ e)).

(** [ReplaceBound]: run on the registry assigned to, whose [boundTo] is the
    new owner. *)
Definition ReplaceBound (toReplace : uintptr_t) (e : Event) : Event :=
  mkEvent (boundTo e)
    (map (fun call_list =>
            (fst call_list,
             map (fun call =>
                    if class_ptr call =? toReplace
                    then mkCall (handle call) (boundTo e) (function call)
                    else call)
                 (snd call_list)))
         (callList_ e))
    (priority_ e) (initialized_ e).

(** [operator=]. [same_object] is [&other == this]; it can only hold when
    [other] and [this] are one registry. *)
Definition assign (this other : Event) (same_object : bool) : Event :=
  if same_object then this
  else
    let this1 := mkEvent (boundTo this) (callList_ other) (priority_ other)
                         (initialized_ other) in
    if negb (boundTo this1 =? nullptr) && negb (boundTo other =? nullptr)
    then ReplaceBound (boundTo other) this1
    else this1.

(** The registries a program can build: constructed, bound, hooked into,
    unhooked from, cleared and assigned; and, should the sentinel of
    [UnhookClass] be given a value, what its loop leaves. *)
Inductive reachable : Event -> Prop :=
| reach_default : reachable Event_default
| reach_BindTo e bindTo : reachable e -> reachable (BindTo bindTo e)
| reach_Hook e PRIORITY f h e' :
    reachable e -> Hook PRIORITY f e = Ok (h, e') -> reachable e'
| reach_Unhook e h e' : reachable e -> Unhook h e = Ok e' -> reachable e'
| reach_UnhookClass e handle e' :
    reachable e -> UnhookClass_body handle e = Ok e' -> reachable e'
| reach_Clear e e' : reachable e -> Clear e = Ok e' -> reachable e'
| reach_assign this other same_object :
    reachable this -> reachable other -> (same_object = true -> other = this) ->
    reachable (assign this other same_object).

End Event.

Arguments Invoke {Args} e args.

(** ** Derived descriptions used in the statements *)

(** The handle and the call the overloads of [Hook] build for a callable
    registered at [priority] (shown equal to the source's by [Hook_unfold]). *)
Definition handle_of (f : Callable) (priority : EventHandle.Priority) : EventHandle.t :=
  match f with
  | std_function func => EventHandle.make priority Identifier.StdFunction func
  | lambda lambda_addr => EventHandle.make priority Identifier.Lambda lambda_addr
  | function_pointer func_ptr => EventHandle.make priority Identifier.Function func_ptr
  | member_function class_ptr func_ptr =>
      EventHandle.make priority Identifier.MemberFunction (Z.lxor class_ptr func_ptr)
  end.

Definition call_of (f : Callable) (priority : EventHandle.Priority) : Call :=
  match f with
  | std_function func => Call_std_function func (handle_of f priority)
  | lambda lambda_addr => Call_callable lambda_addr (handle_of f priority)
  | function_pointer func_ptr => Call_callable func_ptr (handle_of f priority)
  | member_function class_ptr func_ptr =>
      Call_member class_ptr func_ptr (handle_of f priority)
  end.

(** The keys of the map are strictly ascending. *)
Definition ascending (m : CallMap.t) : Prop := StronglySorted Z.lt (map fst m).

(** No two calls of one bucket have the same handle. *)
Definition UniqueHandles (e : Event) : Prop :=
  Forall (fun b => NoDup (map handle (snd b))) (callList_ e).

(** Every call is stored under the priority of its handle, only a
    member-function call has an owner, and the identifier is one of the four
    kinds of callable. *)
Definition call_ok (k : Z) (c : Call) : Prop :=
  EventHandle.priority (handle c) = k /\
  (EventHandle.identifier (handle c) <> Identifier.MemberFunction -> class_ptr c = nullptr) /\
  Identifier.Function <= EventHandle.identifier (handle c) <= Identifier.MemberFunction.

Record Inv (e : Event) : Prop := mkInv {
  inv_ascending : ascending (callList_ e);
  inv_unique : UniqueHandles e;
  inv_calls : Forall (fun b => Forall (call_ok (fst b)) (snd b)) (callList_ e);
  inv_uninitialized : initialized_ e = false -> callList_ e = [];
  inv_counter : INT16_MIN <= priority_ e <= INT16_MAX
}.

(** In order-preserving mode: the counter has not wrapped around. *)
Definition Unwrapped (e : Event) : Prop :=
  Forall (fun b => fst b < priority_ e) (callList_ e).

(** [z, z+1, ..., z+n-1]. *)
Fixpoint counting (z : Z) (n : nat) : list Z :=
  match n with
  | O => []
  | S n' => z :: counting (z + 1) n'
  end.

(** ** Further descriptions, and example registries *)

(** The priority a [Hook] registers at, and the counter it leaves. *)
Definition hook_priority (KeepOrder : bool) (P : Z) (e : Event) : Z :=
  if KeepOrder then priority_ e else P.

Definition hook_counter (KeepOrder : bool) (e : Event) : Z :=
  if KeepOrder then int16_t (priority_ e + 1) else priority_ e.

Definition has_identifier (id : Identifier.t) (c : Call) : bool :=
  EventHandle.identifier (handle c) =? id.

(** What [ReplaceBound] does to one call. *)
Definition rebind (toReplace owner : uintptr_t) (call : Call) : Call :=
  if class_ptr call =? toReplace
  then mkCall (handle call) owner (function call)
  else call.

(** The registry left by a sequence of [Hook] calls (the registry itself
    when one of them fails). *)
Definition hooked (KeepOrder : bool) (hooks : list (Z * Callable)) (e : Event) : Event :=
  match HookAll KeepOrder hooks e with
  | Ok (_, e') => e'
  | Fatal _ => e
  end.

(** Three free functions hooked at priorities 5, 1 and 3. *)
Definition three_functions : list (Z * Callable) :=
  [(5, function_pointer 4096); (1, function_pointer 4112); (3, function_pointer 4128)].

Definition example_explicit : Event :=
  hooked false three_functions (Event_bound nullptr).

(** The call [c'] is the call [c] with the owner [a] replaced by [b]. *)
Definition rebound (a b : uintptr_t) (c c' : Call) : Prop :=
  handle c' = handle c /\ function c' = function c /\
  class_ptr c' = if class_ptr c =? a then b else class_ptr c.

(** A registry owned by the object at 0x1000, with one of the object's
    member functions, a member function of another object and a free
    function hooked; and an empty registry owned by the object at 0x2000. *)
Definition example_source : Event :=
  hooked false
    [(0, member_function 4096 4198400); (0, member_function 12288 4198400);
     (2, function_pointer 4198656)]
    (Event_bound 4096).

Definition example_destination : Event := Event_bound 8192.

(** Two objects, at 0x7000 and 0x8000, each with a member function hooked,
    and a free function. *)
Definition example_members : Event :=
  hooked false
    [(0, member_function 28672 4198400); (0, member_function 32768 4198400);
     (1, function_pointer 4198656)]
    (Event_bound nullptr).

(** The buckets and the handles a run of [Hook] calls makes in
    order-preserving mode from the counter value [z], while the counter does
    not wrap around. *)
Fixpoint ordered_buckets (z : Z) (hooks : list (Z * Callable)) : CallMap.t :=
  match hooks with
  | [] => []
  | hook :: rest => (z, [call_of (snd hook) z]) :: ordered_buckets (z + 1) rest
  end.

Fixpoint ordered_handles (z : Z) (hooks : list (Z * Callable)) : list EventHandle.t :=
  match hooks with
  | [] => []
  | hook :: rest => handle_of (snd hook) z :: ordered_handles (z + 1) rest
  end.

(** ** Registries that differ in the owners of their calls *)

(** The call [c] with the owner [g c]. *)
Definition set_owner (g : Call -> uintptr_t) (c : Call) : Call :=
  mkCall (handle c) (g c) (function c).

(** The registry [e] with the owner of every call [c] replaced by [g c]. *)
Definition with_owners (g : Call -> uintptr_t) (e : Event) : Event :=
  mkEvent (boundTo e)
    (map (fun b => (fst b, map (set_owner g) (snd b))) (callList_ e))
    (priority_ e) (initialized_ e).

(** ** CallHash *)

(** Conversion to [size_t], 64 bits wide. *)
Definition size_t (z : Z) : Z := z mod 2 ^ 64.

Section CallHash.

(** [std::hash<Priority>], [std::hash<Identifier>] and [std::hash<uintptr_t>]:
    left to the implementation of the library, with values of [size_t]. *)
Variables hash_Priority hash_Identifier hash_uintptr_t : Z -> Z.

(** [CallHash::operator()]. *)
Definition CallHash (call : Call) : Z :=
  let priority := EventHandle.GetPriority (handle call) in
  let identifier := EventHandle.GetIdentifier (handle call) in
  let function := EventHandle.GetFunction (handle call) in
  Z.lxor
    (Z.shiftr
       (Z.lxor (hash_Priority priority)
               (size_t (Z.shiftl (hash_Identifier identifier) 1)))
       1)
    (size_t (Z.shiftl (hash_uintptr_t function) 1)).

End CallHash.

(** ** Effects after a copy assignment *)


(** The calls a run of [Hook] calls registers: each callable with the
    priority of the handle its [Hook] returned. *)
Definition new_calls (hooks : list (Z * Callable)) (hs : list EventHandle.t) : list Call :=
  map (fun hh => call_of (snd (fst hh)) (EventHandle.priority (snd hh))) (combine hooks hs).

(** Two calls with one handle and different owners. *)
Definition example_call : Call :=
  Call_member 4096 4198400 (EventHandle.make 0 Identifier.MemberFunction 4194304).

Definition example_call_rebound : Call :=
  Call_member 8192 4198400 (EventHandle.make 0 Identifier.MemberFunction 4194304).

(** ** EventHandle: equality and order *)

Lemma EventHandle_eqb_eq (a b : EventHandle.t) :
  EventHandle.eqb a b = true <-> a = b.
Proof.
  unfold EventHandle.eqb. rewrite !andb_true_iff, !Z.eqb_eq.
  destruct a as [pa ia fa], b as [pb ib fb]; simpl. split.
  - intros [[-> ->] ->]. reflexivity.
  - intros H. injection H as -> -> ->. auto.
Qed.

Lemma EventHandle_eqb_components (a b : EventHandle.t) :
  EventHandle.eqb a b = true <->
  EventHandle.priority a = EventHandle.priority b /\
  EventHandle.identifier a = EventHandle.identifier b /\
  EventHandle.function a = EventHandle.function b.
Proof.
  unfold EventHandle.eqb. rewrite !andb_true_iff, !Z.eqb_eq. tauto.
Qed.

Lemma EventHandle_eqb_refl (a : EventHandle.t) : EventHandle.eqb a a = true.
Proof. apply EventHandle_eqb_eq. reflexivity. Qed.

Lemma EventHandle_eqb_neq (a b : EventHandle.t) :
  EventHandle.eqb a b = false <-> a <> b.
Proof.
  rewrite <- EventHandle_eqb_eq. destruct (EventHandle.eqb a b); split; congruence.
Qed.

(** [operator<] holds exactly when every component is strictly smaller. *)
Lemma EventHandle_lt_components (a b : EventHandle.t) :
  EventHandle.lt a b = true <->
  EventHandle.priority a < EventHandle.priority b /\
  EventHandle.identifier a < EventHandle.identifier b /\
  EventHandle.function a < EventHandle.function b.
Proof.
  unfold EventHandle.lt. rewrite !andb_true_iff, !Z.ltb_lt. tauto.
Qed.

Lemma EventHandle_lt_irrefl (a : EventHandle.t) : EventHandle.lt a a = false.
Proof.
  destruct (EventHandle.lt a a) eqn:E; [|reflexivity].
  apply EventHandle_lt_components in E. lia.
Qed.

Lemma EventHandle_lt_trans (a b c : EventHandle.t) :
  EventHandle.lt a b = true -> EventHandle.lt b c = true -> EventHandle.lt a c = true.
Proof. rewrite !EventHandle_lt_components. lia. Qed.

Lemma EventHandle_lt_lex (a b : EventHandle.t) :
  EventHandle.lt a b = true -> EventHandle.lex_lt a b.
Proof. rewrite EventHandle_lt_components. unfold EventHandle.lex_lt. lia. Qed.

(** C2. The specification reads [operator<] as the lexicographic order on
    (priority, identifier, function), a strict total order consistent with
    [operator==]. On the handles (0, Function, 0x2000) and (1, Function,
    0x1000) the first precedes the second lexicographically, yet
    [operator<] holds in neither direction and [operator==] does not hold
    either: the source's [operator<] is the conjunction of the three
    component comparisons and never looks at a later component when an
    earlier one ties or decides. *)
Theorem EventHandle_lt_not_lexicographic :
  let a := EventHandle.make 0 Identifier.Function 8192 in
  let b := EventHandle.make 1 Identifier.Function 4096 in
  EventHandle.lex_lt a b /\
  EventHandle.lt a b = false /\
  EventHandle.lt b a = false /\
  EventHandle.eqb a b = false.
Proof.
  cbv zeta. unfold EventHandle.lex_lt. simpl.
  repeat split; try reflexivity. left. lia.
Qed.

(** ** The error monad *)

Lemma bind_Ok {A B : Type} (r : result A) (k : A -> result B) (b : B) :
  bind r k = Ok b -> exists a, r = Ok a /\ k a = Ok b.
Proof. destruct r as [a|f]; simpl; [eauto | discriminate]. Qed.

Lemma assert_Ok (b : bool) (a : Assertion) : assert b a = Ok tt <-> b = true.
Proof. destruct b; simpl; split; congruence. Qed.

Lemma not_fatal_Ok {A : Type} (a : A) : ~ fatal (Ok a).
Proof. intros [f H]. discriminate. Qed.

(** ** USet *)

Lemma existsb_eqb_false (c : Call) (s : USet.t) :
  existsb (fun c' => Internal.eqb c' c) s = false <-> ~ In (handle c) (map handle s).
Proof.
  induction s as [|x s IH]; simpl.
  - tauto.
  - rewrite orb_false_iff, IH. unfold Internal.eqb.
    rewrite EventHandle_eqb_neq. tauto.
Qed.

Lemma emplace_back_Ok (c : Call) (s s' : USet.t) :
  USet.emplace_back c s = Ok s' <->
  ~ In (handle c) (map handle s) /\ s' = s ++ [c].
Proof.
  unfold USet.emplace_back, USet.emplace.
  rewrite <- existsb_eqb_false.
  destruct (existsb _ s); simpl; split; intros H.
  - discriminate.
  - destruct H; discriminate.
  - injection H as <-. auto.
  - destruct H as [_ ->]. reflexivity.
Qed.

Lemma emplace_back_duplicate (c : Call) (s : USet.t) :
  In (handle c) (map handle s) -> USet.emplace_back c s = Fatal assert_was_added.
Proof.
  intros H. unfold USet.emplace_back, USet.emplace.
  destruct (existsb _ s) eqn:E; [reflexivity|].
  apply existsb_eqb_false in E. contradiction.
Qed.

Lemma find_erase_Some (h : EventHandle.t) (s s' : USet.t) :
  USet.find_erase h s = Some s' ->
  exists s1 c s2,
    s = s1 ++ c :: s2 /\ s' = s1 ++ s2 /\ handle c = h /\
    ~ In h (map handle s1).
Proof.
  revert s'. induction s as [|x s IH]; simpl; intros s' H.
  - discriminate.
  - unfold Internal.eqb_handle in H.
    destruct (EventHandle.eqb (handle x) h) eqn:E.
    + injection H as <-. apply EventHandle_eqb_eq in E.
      exists [], x, s. simpl. tauto.
    + destruct (USet.find_erase h s) as [t|] eqn:F; [|discriminate].
      injection H as <-.
      destruct (IH t eq_refl) as (s1 & c & s2 & -> & -> & Hc & Hn).
      apply EventHandle_eqb_neq in E.
      exists (x :: s1), c, s2. simpl. intuition congruence.
Qed.

Lemma find_erase_None (h : EventHandle.t) (s : USet.t) :
  USet.find_erase h s = None <-> ~ In h (map handle s).
Proof.
  induction s as [|x s IH]; simpl.
  - tauto.
  - unfold Internal.eqb_handle.
    destruct (EventHandle.eqb (handle x) h) eqn:E.
    + apply EventHandle_eqb_eq in E. split; [discriminate | tauto].
    + apply EventHandle_eqb_neq in E.
      destruct (USet.find_erase h s); simpl.
      * split; [discriminate|]. intros H.
        assert (N : ~ In h (map handle s)) by tauto.
        apply IH in N. discriminate.
      * split; [|reflexivity]. intros _ [H|H]; [congruence|]. now apply IH.
Qed.

(** ** The map of buckets *)

Lemma at_key_In (k : Z) (m : CallMap.t) :
  CallMap.at_key k m = [] \/ In (k, CallMap.at_key k m) m.
Proof.
  induction m as [|[k' s] m IH]; simpl; [now left|].
  destruct (k <? k'); [now left|].
  destruct (Z.eqb_spec k k') as [->|N].
  - right. now left.
  - destruct IH; [now left | right; now right].
Qed.

Lemma at_key_Forall (P : Z * USet.t -> Prop) (k : Z) (m : CallMap.t) :
  Forall P m -> P (k, []) -> P (k, CallMap.at_key k m).
Proof.
  intros F E. destruct (at_key_In k m) as [->|I]; [exact E|].
  rewrite Forall_forall in F. now apply F.
Qed.

Lemma set_Forall (P : Z * USet.t -> Prop) (k : Z) (v : USet.t) (m : CallMap.t) :
  Forall P m -> P (k, v) -> Forall P (CallMap.set k v m).
Proof.
  intros F Pv. induction F as [|[k' s] m Px F IH]; simpl.
  - auto.
  - destruct (k <? k'); [auto|].
    destruct (k =? k'); auto.
Qed.

Lemma set_keys_In (x k : Z) (v : USet.t) (m : CallMap.t) :
  In x (map fst (CallMap.set k v m)) -> x = k \/ In x (map fst m).
Proof.
  induction m as [|[k' s] m IH]; simpl.
  - intuition.
  - destruct (k <? k'); [simpl; intuition|].
    destruct (k =? k'); simpl; intuition.
Qed.

Lemma set_ascending (k : Z) (v : USet.t) (m : CallMap.t) :
  ascending m -> ascending (CallMap.set k v m).
Proof.
  unfold ascending. induction m as [|[k' s] m IH]; simpl; intros A.
  - repeat constructor.
  - apply StronglySorted_inv in A. destruct A as [A F].
    destruct (Z.ltb_spec k k') as [L|L].
    + simpl. constructor.
      * constructor; assumption.
      * constructor; [exact L|].
        rewrite Forall_forall in F |- *. intros x I. specialize (F x I). lia.
    + destruct (Z.eqb_spec k k') as [->|N]; simpl.
      * constructor; assumption.
      * constructor; [apply IH, A|].
        rewrite Forall_forall in F |- *. intros x I.
        apply set_keys_In in I. destruct I as [->|I]; [lia | now apply F].
Qed.

(** Where [operator[]] points: the buckets before it, the bucket, the
    buckets after it. *)
Lemma set_split (k : Z) (m : CallMap.t) :
  exists m1 m2,
    (forall v, CallMap.set k v m = m1 ++ (k, v) :: m2) /\
    flat_map snd m = flat_map snd m1 ++ CallMap.at_key k m ++ flat_map snd m2.
Proof.
  induction m as [|[k' s] m IH]; simpl.
  - exists [], []. auto.
  - destruct (k <? k').
    + exists [], ((k', s) :: m). auto.
    + destruct (k =? k').
      * exists [], m. auto.
      * destruct IH as (m1 & m2 & S & F).
        exists ((k', s) :: m1), m2. split.
        -- intros v. rewrite S. reflexivity.
        -- simpl. rewrite F, <- app_assoc. reflexivity.
Qed.

Lemma Calls_set (k : Z) (m : CallMap.t) :
  exists l1 l2,
    flat_map snd m = l1 ++ CallMap.at_key k m ++ l2 /\
    forall v, flat_map snd (CallMap.set k v m) = l1 ++ v ++ l2.
Proof.
  destruct (set_split k m) as (m1 & m2 & S & F).
  exists (flat_map snd m1), (flat_map snd m2). split; [exact F|].
  intros v. rewrite S, flat_map_app. reflexivity.
Qed.

(** A key above every key of the map: a new last bucket. *)
Lemma set_last (k : Z) (m : CallMap.t) :
  Forall (fun b => fst b < k) m ->
  CallMap.at_key k m = [] /\ forall v, CallMap.set k v m = m ++ [(k, v)].
Proof.
  induction 1 as [|[k' s] m L F IH]; simpl in *.
  - auto.
  - destruct (Z.ltb_spec k k'); [lia|].
    destruct (Z.eqb_spec k k'); [lia|].
    destruct IH as [-> S]. split; [reflexivity|].
    intros v. rewrite S. reflexivity.
Qed.

(** A key below every key of the map: a new first bucket. *)
Lemma set_first (k : Z) (m : CallMap.t) :
  Forall (fun b => k < fst b) m ->
  CallMap.at_key k m = [] /\ forall v, CallMap.set k v m = (k, v) :: m.
Proof.
  destruct 1 as [|[k' s] m L F]; simpl in *.
  - auto.
  - destruct (Z.ltb_spec k k'); [auto | lia].
Qed.

Lemma at_key_cleared (k : Z) (m : CallMap.t) :
  CallMap.at_key k (map (fun call_list => (fst call_list, @nil Call)) m) = [].
Proof.
  induction m as [|[k' s] m IH]; simpl; [reflexivity|].
  destruct (k <? k'); [reflexivity|].
  destruct (k =? k'); [reflexivity | exact IH].
Qed.

(** ** The loops of Invoke and CallListSize *)

Lemma invoke_loop {Args : Type} (args : Args) (m : CallMap.t) (done : list (Effect Args)) :
  fold_left
    (fun done priority =>
       fold_left (fun done call => done ++ [invoke call args]) (snd priority) done)
    m done
  = done ++ map (fun c => invoke c args) (flat_map snd m).
Proof.
  assert (inner : forall (s : USet.t) (d : list (Effect Args)),
    fold_left (fun done call => done ++ [invoke call args]) s d
    = d ++ map (fun c => invoke c args) s).
  { induction s as [|c s IH]; intros d; simpl.
    - now rewrite app_nil_r.
    - rewrite IH, <- app_assoc. reflexivity. }
  revert done. induction m as [|[k s] m IH]; intros done; simpl.
  - now rewrite app_nil_r.
  - rewrite IH, inner, map_app, app_assoc. reflexivity.
Qed.

Lemma Invoke_Calls {Args : Type} (e : Event) (args : Args) :
  initialized_ e = true ->
  Invoke e args = Ok (map (fun c => invoke c args) (Calls e)).
Proof.
  intros I. unfold Invoke, AssertInitialized. rewrite I. simpl.
  rewrite invoke_loop. reflexivity.
Qed.

Lemma size_loop (m : CallMap.t) (size : Z) :
  fold_left (fun size call_list => size + Z.of_nat (length (snd call_list))) m size
  = size + Z.of_nat (length (flat_map snd m)).
Proof.
  revert size. induction m as [|[k s] m IH]; intros size; simpl.
  - lia.
  - rewrite IH, length_app. lia.
Qed.

Lemma CallListSize_Calls (e : Event) :
  initialized_ e = true ->
  CallListSize e = Ok (Z.of_nat (length (Calls e))).
Proof.
  intros I. unfold CallListSize, AssertInitialized. rewrite I. simpl.
  rewrite size_loop. reflexivity.
Qed.

(** ** Hook *)

Lemma int16_t_range (z : Z) : INT16_MIN <= int16_t z <= INT16_MAX.
Proof.
  unfold int16_t, INT16_MIN, INT16_MAX.
  pose proof (Z.mod_pos_bound (z + 32768) 65536 eq_refl). lia.
Qed.

Lemma int16_t_id (z : Z) : INT16_MIN <= z <= INT16_MAX -> int16_t z = z.
Proof.
  unfold int16_t, INT16_MIN, INT16_MAX. intros R.
  rewrite Z.mod_small; lia.
Qed.

Lemma int16_t_wraps : int16_t (INT16_MAX + 1) = INT16_MIN.
Proof. reflexivity. Qed.

Lemma handle_call_of (f : Callable) (p : Z) : handle (call_of f p) = handle_of f p.
Proof. destruct f; reflexivity. Qed.

Lemma priority_handle_of (f : Callable) (p : Z) :
  EventHandle.priority (handle_of f p) = p.
Proof. destruct f; reflexivity. Qed.

Lemma invoke_call_of {Args : Type} (f : Callable) (p : Z) (args : Args) :
  invoke (call_of f p) args = effect_of f args.
Proof. destruct f; reflexivity. Qed.

Lemma call_of_ok (f : Callable) (p : Z) : call_ok p (call_of f p).
Proof.
  split; [rewrite handle_call_of; apply priority_handle_of|].
  split.
  - destruct f; simpl; intros N; try reflexivity.
    exfalso. apply N. reflexivity.
  - destruct f; simpl;
      unfold Identifier.Function, Identifier.MemberFunction, Identifier.StdFunction,
        Identifier.Lambda; lia.
Qed.

(** The four overloads are one body, up to the handle and the call built. *)
Lemma Hook_unfold (KeepOrder : bool) (P : Z) (f : Callable) (e : Event) :
  Hook KeepOrder P f e =
  (_ <- AssertInitialized e ;;
   let '(priority, e1) := take_priority KeepOrder P e in
   e2 <- emplace_at priority (call_of f priority) e1 ;;
   Ok (handle_of f priority, e2)).
Proof. destruct f; reflexivity. Qed.

Lemma Hook_Ok (KeepOrder : bool) (P : Z) (f : Callable) (e : Event)
  (h : EventHandle.t) (e' : Event) :
  Hook KeepOrder P f e = Ok (h, e') <->
  initialized_ e = true /\
  h = handle_of f (hook_priority KeepOrder P e) /\
  ~ In h (map handle (CallMap.at_key (hook_priority KeepOrder P e) (callList_ e))) /\
  e' = mkEvent (boundTo e)
         (CallMap.set (hook_priority KeepOrder P e)
            (CallMap.at_key (hook_priority KeepOrder P e) (callList_ e)
             ++ [call_of f (hook_priority KeepOrder P e)])
            (callList_ e))
         (hook_counter KeepOrder e) true.
Proof.
  rewrite Hook_unfold.
  unfold AssertInitialized, take_priority, Ordered, emplace_at, hook_priority, hook_counter.
  destruct (initialized_ e) eqn:I; simpl.
  2:{ split; [discriminate | intros [? _]; discriminate]. }
  destruct KeepOrder; simpl.
  - destruct (USet.emplace_back _ _) as [s|a] eqn:E; simpl.
    + apply emplace_back_Ok in E. destruct E as [N ->].
      rewrite handle_call_of in N. split.
      * intros H. injection H as <- <-. rewrite ?I. auto.
      * intros (_ & -> & _ & ->). rewrite ?I. reflexivity.
    + split; [discriminate|]. intros (_ & -> & N & _).
      rewrite <- handle_call_of in N.
      assert (X := proj2 (emplace_back_Ok _ _ _) (conj N eq_refl)).
      rewrite X in E. discriminate.
  - destruct (USet.emplace_back _ _) as [s|a] eqn:E; simpl.
    + apply emplace_back_Ok in E. destruct E as [N ->].
      rewrite handle_call_of in N. split.
      * intros H. injection H as <- <-. rewrite ?I. auto.
      * intros (_ & -> & _ & ->). rewrite ?I. reflexivity.
    + split; [discriminate|]. intros (_ & -> & N & _).
      rewrite <- handle_call_of in N.
      assert (X := proj2 (emplace_back_Ok _ _ _) (conj N eq_refl)).
      rewrite X in E. discriminate.
Qed.

Lemma Hook_duplicate (KeepOrder : bool) (P : Z) (f : Callable) (e : Event) :
  initialized_ e = true ->
  In (handle_of f (hook_priority KeepOrder P e))
     (map handle (CallMap.at_key (hook_priority KeepOrder P e) (callList_ e))) ->
  Hook KeepOrder P f e = Fatal assert_was_added.
Proof.
  intros I D. rewrite Hook_unfold.
  unfold AssertInitialized, take_priority, Ordered, emplace_at, hook_priority in *.
  rewrite I. simpl.
  destruct KeepOrder; simpl; rewrite emplace_back_duplicate;
    try reflexivity; rewrite handle_call_of; exact D.
Qed.

Lemma Hook_uninitialized (KeepOrder : bool) (P : Z) (f : Callable) (e : Event) :
  initialized_ e = false -> Hook KeepOrder P f e = Fatal assert_initialized.
Proof.
  intros I. rewrite Hook_unfold. unfold AssertInitialized. rewrite I. reflexivity.
Qed.

(** ** Unhook *)

Lemma Unhook_RemoveCall (h : EventHandle.t) (e : Event) :
  Unhook h e = RemoveCall h e.
Proof.
  unfold Unhook, RemoveCall, AssertInitialized.
  destruct (initialized_ e); reflexivity.
Qed.

Lemma Unhook_Ok (h : EventHandle.t) (e e' : Event) :
  Unhook h e = Ok e' <->
  initialized_ e = true /\
  exists s',
    USet.find_erase h (CallMap.at_key (EventHandle.priority h) (callList_ e)) = Some s' /\
    e' = mkEvent (boundTo e) (CallMap.set (EventHandle.priority h) s' (callList_ e))
           (priority_ e) (initialized_ e).
Proof.
  rewrite Unhook_RemoveCall.
  unfold RemoveCall, AssertInitialized, EventHandle.GetPriority.
  destruct (initialized_ e); simpl.
  2:{ split; [discriminate | intros [? _]; discriminate]. }
  destruct (USet.find_erase h _) as [s|]; split.
  - intros H. injection H as <-. eauto.
  - intros (_ & s' & E & ->). injection E as <-. reflexivity.
  - discriminate.
  - intros (_ & s' & E & _). discriminate.
Qed.

(** [Unhook] fails exactly when the registry is not initialized or the
    bucket of the handle's priority holds no equal handle. *)
Lemma Unhook_fatal (h : EventHandle.t) (e : Event) :
  fatal (Unhook h e) <->
  initialized_ e = false \/
  ~ In h (map handle (CallMap.at_key (EventHandle.priority h) (callList_ e))).
Proof.
  rewrite Unhook_RemoveCall.
  unfold RemoveCall, AssertInitialized, EventHandle.GetPriority.
  destruct (initialized_ e); simpl.
  2:{ split; [now left | intros _; eexists; reflexivity]. }
  rewrite <- find_erase_None.
  destruct (USet.find_erase h _) as [s|]; split.
  - intros H. now apply not_fatal_Ok in H.
  - intros [H|H]; discriminate.
  - now right.
  - intros _. eexists. reflexivity.
Qed.

(** ** UnhookClass *)

Lemma erase_identifier_filter (id : Identifier.t) (s : USet.t) (unhooked : bool) :
  erase_identifier id s unhooked =
  (filter (fun c => negb (has_identifier id c)) s,
   unhooked || existsb (has_identifier id) s).
Proof.
  revert unhooked. unfold has_identifier.
  induction s as [|c s IH]; intros u; simpl.
  - now rewrite orb_false_r.
  - unfold EventHandle.GetIdentifier.
    destruct (EventHandle.identifier (handle c) =? id); simpl.
    + rewrite IH. simpl. now rewrite orb_true_r.
    + rewrite IH. reflexivity.
Qed.

Lemma erase_identifier_all_filter (id : Identifier.t) (m : CallMap.t) (unhooked : bool) :
  erase_identifier_all id m unhooked =
  (map (fun b => (fst b, filter (fun c => negb (has_identifier id c)) (snd b))) m,
   unhooked || existsb (has_identifier id) (flat_map snd m)).
Proof.
  revert unhooked. induction m as [|[k s] m IH]; intros u; simpl.
  - now rewrite orb_false_r.
  - rewrite erase_identifier_filter, IH, existsb_app, orb_assoc. reflexivity.
Qed.

(** The loop of [UnhookClass] erases the calls whose identifier is the
    sentinel's, and the assertion fails when there is none. *)
Lemma UnhookClass_body_spec (sentinel : EventHandle.t) (e : Event) :
  UnhookClass_body sentinel e =
  if initialized_ e then
    if existsb (has_identifier (EventHandle.identifier sentinel)) (Calls e) then
      Ok (mkEvent (boundTo e)
            (map (fun b =>
                    (fst b,
                     filter (fun c =>
                               negb (has_identifier (EventHandle.identifier sentinel) c))
                            (snd b)))
                 (callList_ e))
            (priority_ e) (initialized_ e))
    else Fatal assert_unhooked
  else Fatal assert_initialized.
Proof.
  unfold UnhookClass_body, AssertInitialized, EventHandle.GetIdentifier, Calls.
  destruct (initialized_ e); simpl; [|reflexivity].
  rewrite erase_identifier_all_filter. simpl.
  destruct (existsb _ _); reflexivity.
Qed.

(** ** Clear *)

Lemma Clear_Ok (e : Event) :
  initialized_ e = true ->
  Clear e = Ok (mkEvent (boundTo e)
                  (map (fun call_list => (fst call_list, @nil Call)) (callList_ e))
                  (priority_ e) true).
Proof.
  intros I. unfold Clear, AssertInitialized. rewrite I. reflexivity.
Qed.

Lemma Calls_cleared (m : CallMap.t) :
  flat_map snd (map (fun call_list => (fst call_list, @nil Call)) m) = [].
Proof. induction m as [|b m IH]; simpl; auto. Qed.

(** ** operator= *)

Lemma rebind_handle (a b : uintptr_t) (c : Call) : handle (rebind a b c) = handle c.
Proof. unfold rebind. destruct (class_ptr c =? a); reflexivity. Qed.

Lemma rebind_function (a b : uintptr_t) (c : Call) : function (rebind a b c) = function c.
Proof. unfold rebind. destruct (class_ptr c =? a); reflexivity. Qed.

Lemma rebind_same (a : uintptr_t) (c : Call) : rebind a a c = c.
Proof.
  unfold rebind. destruct (Z.eqb_spec (class_ptr c) a) as [<-|]; [|reflexivity].
  destruct c; reflexivity.
Qed.

Lemma assign_spec (this other : Event) :
  assign this other false =
  mkEvent (boundTo this)
    (if negb (boundTo this =? nullptr) && negb (boundTo other =? nullptr)
     then map (fun b => (fst b, map (rebind (boundTo other) (boundTo this)) (snd b)))
              (callList_ other)
     else callList_ other)
    (priority_ other) (initialized_ other).
Proof.
  unfold assign, ReplaceBound. simpl.
  destruct (negb (boundTo this =? nullptr) && negb (boundTo other =? nullptr)); reflexivity.
Qed.

(** The early return of a self-assignment changes nothing that the general
    path would not leave as it is. *)
Lemma assign_self (e : Event) : assign e e false = assign e e true.
Proof.
  rewrite assign_spec. simpl. destruct e as [b m p i]; simpl.
  f_equal. destruct (negb (b =? nullptr) && negb (b =? nullptr)); [|reflexivity].
  induction m as [|[k s] m IH]; simpl; [reflexivity|].
  rewrite IH. f_equal. f_equal.
  induction s as [|c s IHs]; simpl; [reflexivity|].
  now rewrite IHs, rebind_same.
Qed.

(** ** The invariant of the registry and its preservation *)

Lemma NoDup_map_filter {A B : Type} (f : A -> B) (g : A -> bool) (l : list A) :
  NoDup (map f l) -> NoDup (map f (filter g l)).
Proof.
  induction l as [|x l IH]; simpl; intros N; [constructor|].
  apply NoDup_cons_iff in N. destruct N as [N1 N2].
  destruct (g x); simpl; [|auto].
  constructor; [|auto].
  intros I. apply N1. apply in_map_iff in I. destruct I as (y & E & I).
  apply filter_In in I. apply in_map_iff. exists y. tauto.
Qed.

Lemma Forall_filter_keep {A : Type} (P : A -> Prop) (g : A -> bool) (l : list A) :
  Forall P l -> Forall P (filter g l).
Proof.
  rewrite !Forall_forall. intros F x I. apply filter_In in I. apply F, I.
Qed.

Lemma NoDup_map_snoc (s : USet.t) (c : Call) :
  NoDup (map handle s) -> ~ In (handle c) (map handle s) ->
  NoDup (map handle (s ++ [c])).
Proof.
  intros N I. rewrite map_app. apply NoDup_app; [exact N | repeat constructor; auto |].
  simpl. intros a Ia [<-|[]]. contradiction.
Qed.

Lemma UniqueHandles_BindTo (p : uintptr_t) (e : Event) :
  UniqueHandles e -> UniqueHandles (BindTo p e).
Proof. exact (fun U => U). Qed.

Lemma UniqueHandles_Hook (KeepOrder : bool) (P : Z) (f : Callable) (e : Event)
  (h : EventHandle.t) (e' : Event) :
  UniqueHandles e -> Hook KeepOrder P f e = Ok (h, e') -> UniqueHandles e'.
Proof.
  intros U H. apply Hook_Ok in H. destruct H as (_ & -> & N & ->).
  unfold UniqueHandles in *. simpl.
  apply set_Forall; [exact U|]. simpl.
  apply NoDup_map_snoc.
  - apply (at_key_Forall (fun b => NoDup (map handle (snd b)))); [exact U | constructor].
  - rewrite handle_call_of. exact N.
Qed.

Lemma UniqueHandles_Unhook (h : EventHandle.t) (e e' : Event) :
  UniqueHandles e -> Unhook h e = Ok e' -> UniqueHandles e'.
Proof.
  intros U H. apply Unhook_Ok in H. destruct H as (_ & s' & E & ->).
  unfold UniqueHandles in *. simpl.
  apply set_Forall; [exact U|]. simpl.
  apply find_erase_Some in E. destruct E as (s1 & c & s2 & Es & -> & _ & _).
  assert (N : NoDup (map handle (CallMap.at_key (EventHandle.priority h) (callList_ e)))).
  { apply (at_key_Forall (fun b => NoDup (map handle (snd b)))); [exact U | constructor]. }
  rewrite Es, map_app in N. simpl in N. rewrite map_app.
  eapply NoDup_remove_1. exact N.
Qed.

Lemma UniqueHandles_UnhookClass (sentinel : EventHandle.t) (e e' : Event) :
  UniqueHandles e -> UnhookClass_body sentinel e = Ok e' -> UniqueHandles e'.
Proof.
  intros U H. rewrite UnhookClass_body_spec in H.
  destruct (initialized_ e); [|discriminate].
  destruct (existsb _ _); [|discriminate]. injection H as <-.
  unfold UniqueHandles in *. simpl. rewrite Forall_map. simpl.
  eapply Forall_impl; [|exact U]. intros b. apply NoDup_map_filter.
Qed.

Lemma UniqueHandles_Clear (e e' : Event) :
  UniqueHandles e -> Clear e = Ok e' -> UniqueHandles e'.
Proof.
  intros U H. unfold Clear, AssertInitialized in H.
  destruct (initialized_ e); [|discriminate]. injection H as <-.
  unfold UniqueHandles in *. simpl. rewrite Forall_map. simpl.
  eapply Forall_impl; [|exact U]. intros b _. constructor.
Qed.

Lemma map_handle_rebind (a b : uintptr_t) (s : USet.t) :
  map handle (map (rebind a b) s) = map handle s.
Proof.
  rewrite map_map. apply map_ext. intros c. apply rebind_handle.
Qed.

Lemma UniqueHandles_assign (this other : Event) (same_object : bool) :
  UniqueHandles this -> UniqueHandles other ->
  UniqueHandles (assign this other same_object).
Proof.
  intros Ut Uo. destruct same_object; [exact Ut|].
  rewrite assign_spec. unfold UniqueHandles in *. simpl.
  destruct (negb _ && negb _); [|exact Uo].
  rewrite Forall_map. simpl.
  eapply Forall_impl; [|exact Uo]. intros b N. now rewrite map_handle_rebind.
Qed.

Lemma Inv_default : Inv Event_default.
Proof.
  constructor; simpl; try constructor; unfold INT16_MIN, INT16_MAX; lia.
Qed.

Lemma Inv_BindTo (p : uintptr_t) (e : Event) : Inv e -> Inv (BindTo p e).
Proof.
  intros [A U C I R]. constructor; simpl; auto. discriminate.
Qed.

Lemma Inv_Hook (KeepOrder : bool) (P : Z) (f : Callable) (e : Event)
  (h : EventHandle.t) (e' : Event) :
  Inv e -> Hook KeepOrder P f e = Ok (h, e') -> Inv e'.
Proof.
  intros [A U C I R] H.
  assert (U' := UniqueHandles_Hook _ _ _ _ _ _ U H).
  apply Hook_Ok in H. destruct H as (_ & -> & N & ->).
  constructor; simpl; auto.
  - now apply set_ascending.
  - apply set_Forall; [exact C|]. simpl.
    apply Forall_app. split; [|constructor; [apply call_of_ok | constructor]].
    apply (at_key_Forall (fun b => Forall (call_ok (fst b)) (snd b))); [exact C | constructor].
  - discriminate.
  - unfold hook_counter. destruct KeepOrder; [apply int16_t_range | exact R].
Qed.

Lemma Inv_Unhook (h : EventHandle.t) (e e' : Event) :
  Inv e -> Unhook h e = Ok e' -> Inv e'.
Proof.
  intros [A U C I R] H.
  assert (U' := UniqueHandles_Unhook _ _ _ U H).
  apply Unhook_Ok in H. destruct H as (Ie & s' & E & ->).
  constructor; simpl; auto.
  - now apply set_ascending.
  - apply set_Forall; [exact C|]. simpl.
    apply find_erase_Some in E. destruct E as (s1 & c & s2 & Es & -> & _ & _).
    assert (F : Forall (call_ok (EventHandle.priority h))
                  (CallMap.at_key (EventHandle.priority h) (callList_ e))).
    { apply (at_key_Forall (fun b => Forall (call_ok (fst b)) (snd b)));
        [exact C | constructor]. }
    rewrite Es in F. apply Forall_app in F. destruct F as [F1 F2].
    apply Forall_app. split; [exact F1 | now inversion F2].
  - congruence.
Qed.

Lemma Inv_UnhookClass (sentinel : EventHandle.t) (e e' : Event) :
  Inv e -> UnhookClass_body sentinel e = Ok e' -> Inv e'.
Proof.
  intros [A U C I R] H.
  assert (U' := UniqueHandles_UnhookClass _ _ _ U H).
  rewrite UnhookClass_body_spec in H.
  destruct (initialized_ e) eqn:Ie; [|discriminate].
  destruct (existsb _ _); [|discriminate]. injection H as <-.
  constructor; simpl; auto.
  - unfold ascending in *. rewrite map_map. simpl. exact A.
  - rewrite Forall_map. simpl.
    eapply Forall_impl; [|exact C]. intros b. apply Forall_filter_keep.
  - discriminate.
Qed.

Lemma Inv_Clear (e e' : Event) : Inv e -> Clear e = Ok e' -> Inv e'.
Proof.
  intros [A U C I R] H.
  assert (U' := UniqueHandles_Clear _ _ U H).
  unfold Clear, AssertInitialized in H.
  destruct (initialized_ e) eqn:Ie; [|discriminate]. injection H as <-.
  constructor; simpl; auto.
  - unfold ascending in *. rewrite map_map. simpl. exact A.
  - rewrite Forall_map. simpl.
    eapply Forall_impl; [|exact C]. intros b _. constructor.
  - discriminate.
Qed.

Lemma rebind_ok (k a b : Z) (c : Call) :
  a <> nullptr -> call_ok k c -> call_ok k (rebind a b c).
Proof.
  intros Na (Hp & Ho & Hi). unfold rebind.
  destruct (Z.eqb_spec (class_ptr c) a) as [E|E]; [|now repeat split].
  split; simpl; [exact Hp|]. split; [|exact Hi].
  intros M. specialize (Ho M). congruence.
Qed.

Lemma Inv_assign (this other : Event) (same_object : bool) :
  Inv this -> Inv other -> Inv (assign this other same_object).
Proof.
  intros It Io. destruct same_object; [exact It|].
  assert (U := UniqueHandles_assign this other false (inv_unique _ It) (inv_unique _ Io)).
  destruct Io as [A _ C I R]. rewrite assign_spec in *.
  destruct (negb (boundTo this =? nullptr) && negb (boundTo other =? nullptr)) eqn:B;
    constructor; simpl; auto.
  - unfold ascending in *. rewrite map_map. simpl. exact A.
  - rewrite Forall_map. simpl.
    eapply Forall_impl; [|exact C]. intros b F. rewrite Forall_map.
    eapply Forall_impl; [|exact F]. intros c. apply rebind_ok.
    apply andb_true_iff in B. destruct B as [_ B].
    apply negb_true_iff, Z.eqb_neq in B. exact B.
  - intros Ii. rewrite (I Ii). reflexivity.
Qed.

Theorem reachable_Inv (KeepOrder : bool) (e : Event) : reachable KeepOrder e -> Inv e.
Proof.
  induction 1.
  - apply Inv_default.
  - now apply Inv_BindTo.
  - eapply Inv_Hook; eassumption.
  - eapply Inv_Unhook; eassumption.
  - eapply Inv_UnhookClass; eassumption.
  - eapply Inv_Clear; eassumption.
  - now apply Inv_assign.
Qed.

(** ** What the invariant says about the sequence of calls *)

Lemma bucket_priorities (k : Z) (s : USet.t) :
  Forall (call_ok k) s ->
  Forall (fun c => EventHandle.priority (handle c) = k) s.
Proof. apply Forall_impl. intros c [H _]. exact H. Qed.

Lemma Calls_priority_is_key (m : CallMap.t) :
  Forall (fun b => Forall (call_ok (fst b)) (snd b)) m ->
  Forall (fun c => In (EventHandle.priority (handle c)) (map fst m)) (flat_map snd m).
Proof.
  induction 1 as [|[k s] m Hb F IH]; simpl; [constructor|].
  apply Forall_app. split.
  - apply bucket_priorities in Hb. simpl in Hb.
    eapply Forall_impl; [|exact Hb]. intros c E. now left.
  - eapply Forall_impl; [|exact IH]. intros c I. now right.
Qed.

Lemma StronglySorted_app {A : Type} (R : A -> A -> Prop) (l1 l2 : list A) :
  StronglySorted R l1 -> StronglySorted R l2 ->
  (forall x y, In x l1 -> In y l2 -> R x y) ->
  StronglySorted R (l1 ++ l2).
Proof.
  intros S1 S2 H. induction S1 as [|a l1 S1 IH F]; simpl; [exact S2|].
  constructor.
  - apply IH. intros x y Ix Iy. apply H; [now right | exact Iy].
  - apply Forall_app. split; [exact F|].
    apply Forall_forall. intros y Iy. apply H; [now left | exact Iy].
Qed.

Lemma StronglySorted_constant (k : Z) (l : list Z) :
  Forall (fun x => x = k) l -> StronglySorted Z.le l.
Proof.
  induction 1 as [|x l -> F IH]; constructor; [exact IH|].
  eapply Forall_impl; [|exact F]. intros y ->. lia.
Qed.

(** Along the sequence [Invoke] goes through, priorities never decrease. *)
Lemma Calls_priorities_ascending (m : CallMap.t) :
  ascending m ->
  Forall (fun b => Forall (call_ok (fst b)) (snd b)) m ->
  StronglySorted Z.le (map (fun c => EventHandle.priority (handle c)) (flat_map snd m)).
Proof.
  unfold ascending. intros A C. induction C as [|[k s] m Hb F IH]; simpl in *; [constructor|].
  apply StronglySorted_inv in A. destruct A as [A L].
  rewrite map_app. apply StronglySorted_app.
  - apply (StronglySorted_constant k). rewrite Forall_map.
    now apply bucket_priorities.
  - now apply IH.
  - intros x y Ix Iy.
    apply in_map_iff in Ix. destruct Ix as (c & <- & Ic).
    apply in_map_iff in Iy. destruct Iy as (d & <- & Id).
    apply bucket_priorities in Hb. rewrite Forall_forall in Hb. rewrite (Hb c Ic).
    apply Calls_priority_is_key in F. rewrite Forall_forall in F.
    specialize (F d Id). rewrite Forall_forall in L. specialize (L _ F). lia.
Qed.

(** No handle is registered twice in the whole registry. *)
Lemma Calls_handles_NoDup (m : CallMap.t) :
  ascending m ->
  Forall (fun b => NoDup (map handle (snd b))) m ->
  Forall (fun b => Forall (call_ok (fst b)) (snd b)) m ->
  NoDup (map handle (flat_map snd m)).
Proof.
  unfold ascending. intros A U C.
  induction C as [|[k s] m Hb F IH]; simpl in *; [constructor|].
  apply StronglySorted_inv in A. destruct A as [A L].
  inversion U as [|? ? U1 U2]; subst.
  rewrite map_app. apply NoDup_app; [exact U1 | now apply IH |].
  intros h I1 I2.
  apply in_map_iff in I1. destruct I1 as (c & <- & Ic).
  apply in_map_iff in I2. destruct I2 as (d & E & Id).
  apply bucket_priorities in Hb. rewrite Forall_forall in Hb. specialize (Hb c Ic).
  apply Calls_priority_is_key in F. rewrite Forall_forall in F.
  specialize (F d Id). rewrite Forall_forall in L. specialize (L _ F).
  rewrite E in L. simpl in Hb. lia.
Qed.

Lemma Inv_handles_NoDup (e : Event) : Inv e -> NoDup (map handle (Calls e)).
Proof.
  intros [A U C _ _]. now apply Calls_handles_NoDup.
Qed.

Lemma HookAll_reachable (KeepOrder : bool) (hooks : list (Z * Callable)) :
  forall e hs e',
    reachable KeepOrder e -> HookAll KeepOrder hooks e = Ok (hs, e') ->
    reachable KeepOrder e'.
Proof.
  induction hooks as [|[P f] rest IH]; simpl; intros e hs e' R H.
  - injection H as _ <-. exact R.
  - apply bind_Ok in H. destruct H as ([h e1] & H1 & H).
    apply bind_Ok in H. destruct H as ([hs' e2] & H2 & H).
    injection H as _ <-. simpl in *.
    eapply IH; [|exact H2]. eapply reach_Hook; eassumption.
Qed.

Lemma reachable_bound (KeepOrder : bool) (p : uintptr_t) :
  reachable KeepOrder (Event_bound p).
Proof. apply reach_BindTo, reach_default. Qed.

(** ** The example registries can be built *)

Lemma hooked_reachable (KeepOrder : bool) (hooks : list (Z * Callable)) (e : Event) :
  reachable KeepOrder e -> reachable KeepOrder (hooked KeepOrder hooks e).
Proof.
  intros R. unfold hooked.
  destruct (HookAll KeepOrder hooks e) as [[hs e']|a] eqn:H; [|exact R].
  eapply HookAll_reachable; eassumption.
Qed.

(** ** Invocation *)

(** C3. In explicit-priority mode, for every registry the program can build,
    [Invoke] goes through the buckets in strictly ascending order of their
    key, every call of a bucket carries that key as its priority, and the
    effects are those of every stored call, once each and in that order,
    with the arguments as given; a member-function call is made on the
    call's owner. Three free functions hooked at priorities 5, 1 and 3 are
    called in the order 1, 3, 5. *)
Theorem Invoke_ascending_priority_each_once
  {Args : Type} (e : Event) (args : Args) :
  reachable false e -> initialized_ e = true ->
  Invoke e args = Ok (map (fun c => invoke c args) (flat_map snd (callList_ e))) /\
  StronglySorted Z.lt (map fst (callList_ e)) /\
  Forall (fun b => Forall (fun c => EventHandle.priority (handle c) = fst b) (snd b))
         (callList_ e) /\
  StronglySorted Z.le
    (map (fun c => EventHandle.priority (handle c)) (flat_map snd (callList_ e))) /\
  NoDup (map handle (flat_map snd (callList_ e))) /\
  CallListSize e = Ok (Z.of_nat (length (flat_map snd (callList_ e)))) /\
  (forall c m, In c (flat_map snd (callList_ e)) -> function c = thunk_member m ->
               invoke c args = called_on (class_ptr c) m args) /\
  (forall f5 f1 f3 : uintptr_t,
     exists hs e3,
       HookAll false
         [(5, function_pointer f5); (1, function_pointer f1); (3, function_pointer f3)]
         (Event_bound nullptr) = Ok (hs, e3) /\
       Invoke e3 args = Ok [called f1 args; called f3 args; called f5 args]).
Proof.
  intros R I. pose proof (reachable_Inv _ _ R) as V.
  destruct V as [A U C _ _].
  split; [now apply Invoke_Calls|].
  split; [exact A|].
  split.
  { eapply Forall_impl; [|exact C]. intros b. apply bucket_priorities. }
  split; [now apply Calls_priorities_ascending|].
  split; [now apply Calls_handles_NoDup|].
  split; [now apply CallListSize_Calls|].
  split.
  { intros c m _ Hm. unfold invoke. rewrite Hm. reflexivity. }
  intros f5 f1 f3. eexists. eexists. split; reflexivity.
Qed.

Lemma Invoke_ascending_priority_each_once_witness :
  Invoke example_explicit 7 =
    Ok (map (fun c => invoke c 7) (flat_map snd (callList_ example_explicit))).
Proof.
  apply (Invoke_ascending_priority_each_once example_explicit 7).
  - apply hooked_reachable, reachable_bound.
  - reflexivity.
Defined.

(** ** Duplicate handles *)

(** C5. In every registry the program can build, no two calls of one bucket
    have the same handle; every operation keeps it so; and a [Hook] whose
    handle equals that of a call already in the bucket it registers into
    fails on the assertion of [emplace_back]. *)
Theorem no_duplicate_handle_in_a_bucket (KeepOrder : bool) :
  (forall e, reachable KeepOrder e -> UniqueHandles e) /\
  (forall e, UniqueHandles e ->
     (forall p, UniqueHandles (BindTo p e)) /\
     (forall P f h e', Hook KeepOrder P f e = Ok (h, e') -> UniqueHandles e') /\
     (forall h e', Unhook h e = Ok e' -> UniqueHandles e') /\
     (forall sentinel e', UnhookClass_body sentinel e = Ok e' -> UniqueHandles e') /\
     (forall e', Clear e = Ok e' -> UniqueHandles e') /\
     (forall other same_object,
        UniqueHandles other -> UniqueHandles (assign e other same_object))) /\
  (forall e P f c,
     initialized_ e = true ->
     In c (CallMap.at_key (hook_priority KeepOrder P e) (callList_ e)) ->
     handle c = handle_of f (hook_priority KeepOrder P e) ->
     Hook KeepOrder P f e = Fatal assert_was_added).
Proof.
  split; [|split].
  - intros e R. apply inv_unique. eapply reachable_Inv. exact R.
  - intros e U. repeat split.
    + intros p. now apply UniqueHandles_BindTo.
    + intros P f h e'. now apply UniqueHandles_Hook.
    + intros h e'. now apply UniqueHandles_Unhook.
    + intros sentinel e'. now apply UniqueHandles_UnhookClass.
    + intros e'. now apply UniqueHandles_Clear.
    + intros other same_object Uo. now apply UniqueHandles_assign.
  - intros e P f c I Ic Hc. apply Hook_duplicate; [exact I|].
    rewrite <- Hc. now apply in_map.
Qed.

Lemma no_duplicate_handle_in_a_bucket_witness :
  UniqueHandles example_explicit /\
  Hook false 1 (function_pointer 4112) example_explicit = Fatal assert_was_added.
Proof.
  split.
  - apply (proj1 (no_duplicate_handle_in_a_bucket false)).
    apply hooked_reachable, reachable_bound.
  - apply (proj2 (proj2 (no_duplicate_handle_in_a_bucket false))
             example_explicit 1 (function_pointer 4112)
             (call_of (function_pointer 4112) 1)).
    + reflexivity.
    + simpl. left. reflexivity.
    + reflexivity.
Defined.

(** ** Deregistration by handle *)

Lemma Unhook_removes (h : EventHandle.t) (e e' : Event) :
  Inv e -> Unhook h e = Ok e' ->
  exists l1 c l2,
    handle c = h /\
    In c (CallMap.at_key (EventHandle.priority h) (callList_ e)) /\
    Calls e = l1 ++ c :: l2 /\ Calls e' = l1 ++ l2 /\
    ~ In h (map handle (Calls e')) /\
    initialized_ e = true /\ initialized_ e' = true.
Proof.
  intros V H. pose proof (Inv_handles_NoDup e V) as N.
  apply Unhook_Ok in H. destruct H as (I & s' & E & ->).
  apply find_erase_Some in E. destruct E as (s1 & c & s2 & Es & -> & Hc & _).
  destruct (Calls_set (EventHandle.priority h) (callList_ e)) as (l1 & l2 & F & S).
  unfold Calls in *. simpl. rewrite S. rewrite F, Es in N |- *.
  exists (l1 ++ s1), c, (s2 ++ l2). repeat split.
  - exact Hc.
  - apply in_elt.
  - now rewrite <- !app_assoc.
  - now rewrite <- !app_assoc.
  - replace (l1 ++ (s1 ++ c :: s2) ++ l2) with ((l1 ++ s1) ++ c :: (s2 ++ l2)) in N
      by now rewrite <- !app_assoc.
    rewrite map_app in N. simpl in N. apply NoDup_remove_2 in N.
    rewrite Hc in N. replace (l1 ++ (s1 ++ s2) ++ l2) with ((l1 ++ s1) ++ s2 ++ l2)
      by now rewrite <- !app_assoc.
    now rewrite map_app.
  - exact I.
  - exact I.
Qed.

(** C6. For every registry the program can build and every handle h,
    [Unhook h] fails on an assertion exactly when the bucket of h's priority
    holds no call whose handle equals h. Otherwise it succeeds and removes
    that one call: the sequence of calls is the old one without it, the
    others in place; no call with handle h is left, so that [Invoke] makes
    the effects of the remaining calls only; and [CallListSize] is one less. *)
Theorem Unhook_removes_exactly_that_call
  (KeepOrder : bool) (e : Event) (h : EventHandle.t) :
  reachable KeepOrder e ->
  (fatal (Unhook h e) <->
   ~ exists c, In c (CallMap.at_key (EventHandle.priority h) (callList_ e)) /\
               handle c = h) /\
  ((exists c, In c (CallMap.at_key (EventHandle.priority h) (callList_ e)) /\
              handle c = h) ->
   exists e', Unhook h e = Ok e') /\
  (forall e', Unhook h e = Ok e' ->
     exists l1 c l2,
       handle c = h /\
       Calls e = l1 ++ c :: l2 /\ Calls e' = l1 ++ l2 /\
       ~ In h (map handle (Calls e')) /\
       (exists n, CallListSize e = Ok n /\ CallListSize e' = Ok (n - 1)) /\
       (forall (Args : Type) (args : Args),
          Invoke e' args = Ok (map (fun c => invoke c args) (l1 ++ l2)))).
Proof.
  intros R. pose proof (reachable_Inv _ _ R) as V.
  assert (iff_fatal : fatal (Unhook h e) <->
    ~ exists c, In c (CallMap.at_key (EventHandle.priority h) (callList_ e)) /\
                handle c = h).
  { rewrite Unhook_fatal. split.
    - intros [I|N] (c & Ic & Hc).
      + rewrite (inv_uninitialized _ V I) in Ic. exact Ic.
      + apply N. apply in_map_iff. exists c. auto.
    - intros N. right. intros I. apply N.
      apply in_map_iff in I. destruct I as (c & Hc & Ic). eauto. }
  split; [exact iff_fatal|]. split.
  - intros X. destruct (Unhook h e) as [e'|a] eqn:E; [eauto|].
    exfalso. apply (proj1 iff_fatal); [eexists; reflexivity | exact X].
  - intros e' H.
    destruct (Unhook_removes h e e' V H) as (l1 & c & l2 & Hc & _ & E1 & E2 & N & I & I').
    exists l1, c, l2. repeat split; try assumption.
    + exists (Z.of_nat (length (Calls e))). split; [now apply CallListSize_Calls|].
      rewrite (CallListSize_Calls e' I'), E1, E2, !length_app. simpl.
      f_equal. lia.
    + intros Args args. rewrite (Invoke_Calls e' args I'), E2. reflexivity.
Qed.

Lemma Unhook_removes_exactly_that_call_witness :
  exists e', Unhook (EventHandle.make 3 Identifier.Function 4128) example_explicit = Ok e'.
Proof.
  apply (proj1 (proj2 (Unhook_removes_exactly_that_call false example_explicit
                         (EventHandle.make 3 Identifier.Function 4128)
                         (hooked_reachable false three_functions _
                            (reachable_bound false nullptr))))).
  exists (call_of (function_pointer 4128) 3). split; [|reflexivity].
  simpl. left. reflexivity.
Defined.

(** ** Clear *)

(** C9. [Clear] returns on every initialized registry (on any other it
    fails the assertion of [AssertInitialized]), and the registry it leaves
    has no subscriber: [CallListSize] returns 0, [Invoke] with any arguments
    makes no call, and the registry is still initialized, bound as before,
    and takes every further registration. *)
Theorem Clear_leaves_no_subscriber (KeepOrder : bool) (e : Event) :
  (initialized_ e = true -> exists e', Clear e = Ok e') /\
  (initialized_ e = false -> Clear e = Fatal assert_initialized) /\
  (forall e',
     Clear e = Ok e' ->
     CallListSize e' = Ok 0 /\
     (forall (Args : Type) (args : Args), Invoke e' args = Ok []) /\
     initialized_ e' = true /\
     boundTo e' = boundTo e /\
     (forall P f, exists h e'', Hook KeepOrder P f e' = Ok (h, e''))).
Proof.
  split; [|split].
  - intros I. eexists. apply Clear_Ok, I.
  - intros I. unfold Clear, AssertInitialized. rewrite I. reflexivity.
  - intros e' H.
    destruct (initialized_ e) eqn:I.
    2:{ unfold Clear, AssertInitialized in H. rewrite I in H. discriminate. }
    rewrite (Clear_Ok e I) in H. injection H as <-.
    split.
    { rewrite CallListSize_Calls by reflexivity.
      unfold Calls. simpl. rewrite Calls_cleared. reflexivity. }
    split.
    { intros Args args. rewrite Invoke_Calls by reflexivity.
      unfold Calls. simpl. rewrite Calls_cleared. reflexivity. }
    split; [reflexivity|]. split; [reflexivity|].
    intros P f. eexists. eexists. apply Hook_Ok.
    split; [reflexivity|]. split; [reflexivity|]. split; [|reflexivity].
    simpl. rewrite at_key_cleared. simpl. tauto.
Qed.

Lemma Clear_leaves_no_subscriber_witness :
  exists e',
    Clear example_explicit = Ok e' /\
    CallListSize e' = Ok 0 /\
    (forall (Args : Type) (args : Args), Invoke e' args = Ok []) /\
    initialized_ e' = true /\
    boundTo e' = boundTo example_explicit /\
    (forall P f, exists h e'', Hook false P f e' = Ok (h, e'')).
Proof.
  destruct (proj1 (Clear_leaves_no_subscriber false example_explicit) eq_refl) as [e' H].
  exists e'. split; [exact H|].
  exact (proj2 (proj2 (Clear_leaves_no_subscriber false example_explicit)) e' H).
Defined.

(** ** Copy assignment *)

Lemma rebind_rebound (a b : uintptr_t) (c : Call) : rebound a b c (rebind a b c).
Proof.
  unfold rebound, rebind. destruct (class_ptr c =? a); simpl; auto.
Qed.

Lemma rebound_refl_unbound (a b : uintptr_t) (c : Call) :
  class_ptr c <> a -> rebound a b c c.
Proof.
  intros N. unfold rebound. apply Z.eqb_neq in N. rewrite N. auto.
Qed.

(** C7. Copy assignment of a registry [other] into [this] copies the
    order counter and the buckets, key by key and call by call. When both
    registries have a non-null owner, a copied call whose owner is the
    owner of [other] gets the owner of [this], and every other call is
    copied as it is; otherwise every call is copied as it is. The calls of a
    registry the program can build that are not member-function calls have
    a null owner and so keep it. *)
Theorem assign_copies_and_rebinds
  (KeepOrder : bool) (this other : Event) (same_object : bool) :
  reachable KeepOrder other -> (same_object = true -> other = this) ->
  let r := assign this other same_object in
  priority_ r = priority_ other /\
  initialized_ r = initialized_ other /\
  map fst (callList_ r) = map fst (callList_ other) /\
  (boundTo this <> nullptr -> boundTo other <> nullptr ->
   Forall2 (fun b b' => fst b' = fst b /\
                        Forall2 (rebound (boundTo other) (boundTo this)) (snd b) (snd b'))
           (callList_ other) (callList_ r)) /\
  (boundTo this = nullptr \/ boundTo other = nullptr -> callList_ r = callList_ other) /\
  Forall2 (fun c c' =>
             handle c' = handle c /\ function c' = function c /\
             (EventHandle.identifier (handle c) <> Identifier.MemberFunction ->
              class_ptr c = nullptr /\ class_ptr c' = nullptr))
          (Calls other) (Calls r).
Proof.
  intros R S r. subst r.
  replace (assign this other same_object) with (assign this other false).
  2:{ destruct same_object; [|reflexivity].
      rewrite (S eq_refl). apply assign_self. }
  clear S. rewrite assign_spec. simpl.
  pose proof (reachable_Inv _ _ R) as V. destruct V as [_ _ C _ _].
  split; [reflexivity|]. split; [reflexivity|].
  unfold Calls. simpl.
  destruct (Z.eqb_spec (boundTo this) nullptr) as [Et|Nt]; simpl.
  { repeat split; try tauto.
    induction C as [|[k s] m Hb F IH]; simpl; [constructor|].
    apply Forall2_app; [|exact IH]. clear IH F. simpl in Hb.
    induction Hb as [|c s (_ & Ho & _) F IH]; constructor; auto. }
  destruct (Z.eqb_spec (boundTo other) nullptr) as [Eo|No]; simpl.
  { repeat split; try tauto.
    induction C as [|[k s] m Hb F IH]; simpl; [constructor|].
    apply Forall2_app; [|exact IH]. clear IH F. simpl in Hb.
    induction Hb as [|c s (_ & Ho & _) F IH]; constructor; auto. }
  split.
  { rewrite map_map. reflexivity. }
  split.
  { intros _ _. clear C. induction (callList_ other) as [|[k s] m IH]; simpl; constructor.
    - split; [reflexivity|]. simpl.
      induction s as [|c s IHs]; simpl; constructor; [apply rebind_rebound | exact IHs].
    - exact IH. }
  split; [tauto|].
  induction C as [|[k s] m Hb F IH]; simpl; [constructor|].
  apply Forall2_app; [|exact IH]. clear IH F. simpl in Hb.
  induction Hb as [|c s (_ & Ho & _) F IH]; simpl; constructor; [|exact IH].
  split; [apply rebind_handle|]. split; [apply rebind_function|].
  intros M. specialize (Ho M). split; [exact Ho|].
  unfold rebind. destruct (Z.eqb_spec (class_ptr c) (boundTo other)); [congruence | exact Ho].
Qed.

Lemma assign_copies_and_rebinds_witness :
  map class_ptr (Calls example_source) = [4096; 12288; 0] /\
  map class_ptr (Calls (assign example_destination example_source false))
    = [8192; 12288; 0] /\
  Forall2 (fun b b' =>
             fst b' = fst b /\
             Forall2 (rebound (boundTo example_source) (boundTo example_destination))
                     (snd b) (snd b'))
          (callList_ example_source)
          (callList_ (assign example_destination example_source false)).
Proof.
  split; [reflexivity|]. split; [reflexivity|].
  apply (assign_copies_and_rebinds false example_destination example_source false).
  - apply hooked_reachable, reachable_bound.
  - discriminate.
  - discriminate.
  - discriminate.
Defined.

(** C10. Copy assignment leaves [boundTo] of the registry assigned to as it
    was; it copies the handle and the callable of every call unchanged; and
    a default-constructed registry assigned an initialized one is
    initialized and still bound to no owner. *)
Theorem assign_keeps_boundTo (this other : Event) (same_object : bool) :
  (same_object = true -> other = this) ->
  let r := assign this other same_object in
  boundTo r = boundTo this /\
  map handle (Calls r) = map handle (Calls other) /\
  map function (Calls r) = map function (Calls other) /\
  (this = Event_default -> initialized_ other = true ->
   initialized_ r = true /\ boundTo r = nullptr).
Proof.
  intros S r. subst r.
  replace (assign this other same_object) with (assign this other false).
  2:{ destruct same_object; [|reflexivity].
      rewrite (S eq_refl). apply assign_self. }
  clear S. rewrite assign_spec. unfold Calls. simpl.
  split; [reflexivity|].
  assert (X : forall g : Call -> Call,
             forall m : CallMap.t,
               flat_map snd (map (fun b => (fst b, map g (snd b))) m)
               = map g (flat_map snd m)).
  { intros g m. induction m as [|[k s] m IH]; simpl; [reflexivity|].
    now rewrite IH, map_app. }
  split; [|split].
  - destruct (negb _ && negb _); [|reflexivity].
    rewrite X, map_map. apply map_ext. intros c. apply rebind_handle.
  - destruct (negb _ && negb _); [|reflexivity].
    rewrite X, map_map. apply map_ext. intros c. apply rebind_function.
  - intros -> I. simpl. auto.
Qed.

Lemma assign_keeps_boundTo_witness :
  boundTo (assign Event_default example_source false) = nullptr /\
  initialized_ (assign Event_default example_source false) = true /\
  boundTo (assign example_destination example_source false) = 8192.
Proof.
  pose proof (assign_keeps_boundTo Event_default example_source false
                (fun E => False_ind _ (diff_false_true E))) as D.
  pose proof (assign_keeps_boundTo example_destination example_source false
                (fun E => False_ind _ (diff_false_true E))) as B.
  cbv zeta in D, B.
  destruct D as (_ & _ & _ & D). destruct (D eq_refl eq_refl) as [D1 D2].
  destruct B as (B & _).
  split; [exact D2|]. split; [exact D1 | exact B].
Defined.

(** ** Deregistration by instance *)

Lemma Calls_with_owners (g : Call -> uintptr_t) (e : Event) :
  Calls (with_owners g e) = map (set_owner g) (Calls e).
Proof.
  unfold Calls, with_owners. cbn [callList_].
  induction (callList_ e) as [|[k s] m IH]; simpl; [reflexivity|].
  now rewrite IH, map_app.
Qed.

Lemma existsb_set_owner (id : Identifier.t) (g : Call -> uintptr_t) (l : list Call) :
  existsb (has_identifier id) (map (set_owner g) l) = existsb (has_identifier id) l.
Proof.
  induction l as [|c l IH]; simpl; [reflexivity|]. now rewrite IH.
Qed.

Lemma filter_set_owner (id : Identifier.t) (g : Call -> uintptr_t) (l : list Call) :
  filter (fun c => negb (has_identifier id c)) (map (set_owner g) l)
  = map (set_owner g) (filter (fun c => negb (has_identifier id c)) l).
Proof.
  induction l as [|c l IH]; simpl; [reflexivity|].
  change (has_identifier id (set_owner g c)) with (has_identifier id c).
  destruct (has_identifier id c); simpl; now rewrite IH.
Qed.

Lemma In_Calls_erased (id : Identifier.t) (m : CallMap.t) (x : Call) :
  In x (flat_map snd
          (map (fun b : Z * USet.t =>
                  (fst b, filter (fun c => negb (has_identifier id c)) (snd b))) m))
  <-> In x (flat_map snd m) /\ has_identifier id x = false.
Proof.
  induction m as [|[k s] m IH]; simpl; [tauto|].
  rewrite !in_app_iff, IH, filter_In, negb_true_iff. tauto.
Qed.

(** C1. The specification has [UnhookClass p] remove the member-function
    calls owned by p and no other. The source cannot do so. The sentinel
    the function declares takes the class pointer in the place of an
    [Identifier], which no compiler accepts, so the function cannot be
    called at all; and its loop, for whatever sentinel handle, compares
    identifiers and never reads the owner of a call: it does the same when
    the owners of the calls are replaced by any others, and on a registry
    with a member function of the object at 0x7000 and one of the object at
    0x8000 hooked it erases both calls or neither. *)
Theorem UnhookClass_never_reads_the_owner :
  (forall (sentinel : EventHandle.t) (g : Call -> uintptr_t) (e : Event),
     UnhookClass_body sentinel (with_owners g e)
     = match UnhookClass_body sentinel e with
       | Ok e' => Ok (with_owners g e')
       | Fatal a => Fatal a
       end) /\
  (forall sentinel : EventHandle.t,
     In (call_of (member_function 28672 4198400) 0) (Calls example_members) /\
     In (call_of (member_function 32768 4198400) 0) (Calls example_members) /\
     match UnhookClass_body sentinel example_members with
     | Ok e' =>
         In (call_of (member_function 28672 4198400) 0) (Calls e') <->
         In (call_of (member_function 32768 4198400) 0) (Calls e')
     | Fatal a => a = assert_unhooked
     end).
Proof.
  split.
  - intros sentinel g e. rewrite !UnhookClass_body_spec.
    rewrite Calls_with_owners, existsb_set_owner.
    unfold with_owners at 1. cbn [initialized_ boundTo priority_ callList_].
    destruct (initialized_ e) eqn:I; [|reflexivity].
    destruct (existsb _ _); [|reflexivity].
    unfold with_owners. cbn [initialized_ boundTo priority_ callList_].
    rewrite ?I. do 2 f_equal. rewrite !map_map. apply map_ext. intros [k s]. simpl.
    now rewrite filter_set_owner.
  - intros sentinel.
    assert (I7 : In (call_of (member_function 28672 4198400) 0) (Calls example_members))
      by (simpl; left; reflexivity).
    assert (I8 : In (call_of (member_function 32768 4198400) 0) (Calls example_members))
      by (simpl; right; left; reflexivity).
    split; [exact I7|]. split; [exact I8|].
    rewrite UnhookClass_body_spec.
    change (initialized_ example_members) with true. cbv iota.
    destruct (existsb _ _); [|reflexivity].
    unfold Calls in *. cbn [callList_]. rewrite !In_Calls_erased.
    change (has_identifier (EventHandle.identifier sentinel)
              (call_of (member_function 32768 4198400) 0))
      with (has_identifier (EventHandle.identifier sentinel)
              (call_of (member_function 28672 4198400) 0)).
    tauto.
Qed.

(** ** Order-preserving mode *)

Lemma ordered_handles_priorities (hooks : list (Z * Callable)) (z : Z) :
  map EventHandle.priority (ordered_handles z hooks) = counting z (length hooks).
Proof.
  revert z. induction hooks as [|hook rest IH]; intros z; simpl; [reflexivity|].
  now rewrite priority_handle_of, IH.
Qed.

Lemma ordered_buckets_keys (hooks : list (Z * Callable)) (z : Z) :
  Forall (fun b => z <= fst b < z + Z.of_nat (length hooks)) (ordered_buckets z hooks).
Proof.
  revert z. induction hooks as [|hook rest IH]; intros z; simpl length; simpl; constructor.
  - simpl. lia.
  - eapply Forall_impl; [|apply IH]. simpl. intros b. lia.
Qed.

Lemma ordered_buckets_effects {Args : Type} (args : Args)
  (hooks : list (Z * Callable)) (z : Z) :
  map (fun c => invoke c args) (flat_map snd (ordered_buckets z hooks))
  = map (fun hook => effect_of (snd hook) args) hooks.
Proof.
  revert z. induction hooks as [|hook rest IH]; intros z; simpl; [reflexivity|].
  now rewrite invoke_call_of, IH.
Qed.

Lemma HookAll_app (KeepOrder : bool) (l1 l2 : list (Z * Callable)) :
  forall e hs1 e1 hs2 e2,
    HookAll KeepOrder l1 e = Ok (hs1, e1) ->
    HookAll KeepOrder l2 e1 = Ok (hs2, e2) ->
    HookAll KeepOrder (l1 ++ l2) e = Ok (hs1 ++ hs2, e2).
Proof.
  induction l1 as [|[P f] l1 IH]; simpl; intros e hs1 e1 hs2 e2 H1 H2.
  - injection H1 as <- <-. exact H2.
  - apply bind_Ok in H1. destruct H1 as ([h e'] & Hh & H1).
    apply bind_Ok in H1. destruct H1 as ([hs e''] & Hr & H1).
    injection H1 as <- <-. simpl in *.
    rewrite Hh. simpl. rewrite (IH _ _ _ _ _ Hr H2). reflexivity.
Qed.

(** A [Hook] in order-preserving mode whose counter is above every key makes
    a new last bucket. *)
Lemma Hook_ordered_last (P : Z) (f : Callable) (e : Event) :
  initialized_ e = true -> Unwrapped e ->
  Hook true P f e =
  Ok (handle_of f (priority_ e),
      mkEvent (boundTo e)
        (callList_ e ++ [(priority_ e, [call_of f (priority_ e)])])
        (int16_t (priority_ e + 1)) true).
Proof.
  intros I U. apply Hook_Ok. unfold hook_priority, hook_counter.
  destruct (set_last (priority_ e) (callList_ e) U) as [E S].
  rewrite E, S. simpl. tauto.
Qed.

(** A [Hook] in order-preserving mode whose counter is below every key makes
    a new first bucket. *)
Lemma Hook_ordered_first (P : Z) (f : Callable) (e : Event) :
  initialized_ e = true ->
  Forall (fun b => priority_ e < fst b) (callList_ e) ->
  Hook true P f e =
  Ok (handle_of f (priority_ e),
      mkEvent (boundTo e)
        ((priority_ e, [call_of f (priority_ e)]) :: callList_ e)
        (int16_t (priority_ e + 1)) true).
Proof.
  intros I U. apply Hook_Ok. unfold hook_priority, hook_counter.
  destruct (set_first (priority_ e) (callList_ e) U) as [E S].
  rewrite E, S. simpl. tauto.
Qed.

Lemma HookAll_ordered (hooks : list (Z * Callable)) :
  forall e,
    initialized_ e = true -> Unwrapped e ->
    INT16_MIN <= priority_ e <= INT16_MAX ->
    priority_ e + Z.of_nat (length hooks) <= INT16_MAX + 1 ->
    HookAll true hooks e =
    Ok (ordered_handles (priority_ e) hooks,
        mkEvent (boundTo e)
          (callList_ e ++ ordered_buckets (priority_ e) hooks)
          (int16_t (priority_ e + Z.of_nat (length hooks))) true).
Proof.
  induction hooks as [|[P f] rest IH]; intros e I U R B.
  - simpl. rewrite app_nil_r, Z.add_0_r, int16_t_id by exact R.
    destruct e; simpl in *. now rewrite I.
  - cbn [HookAll]. rewrite (Hook_ordered_last P f e I U). cbn [bind fst snd].
    destruct rest as [|hook rest'].
    + reflexivity.
    + cbn [length] in B.
      assert (E : int16_t (priority_ e + 1) = priority_ e + 1).
      { apply int16_t_id. unfold INT16_MIN, INT16_MAX in *. lia. }
      rewrite E. rewrite IH; cbn [boundTo callList_ priority_ initialized_].
      * cbn [bind fst snd ordered_handles ordered_buckets].
        rewrite <- app_assoc. cbn [app length].
        replace (priority_ e + 1 + Z.of_nat (S (length rest')))
          with (priority_ e + Z.of_nat (S (S (length rest')))) by lia.
        reflexivity.
      * reflexivity.
      * unfold Unwrapped. cbn [callList_ priority_].
        apply Forall_app. split.
        -- eapply Forall_impl; [|exact U]. intros b. simpl. lia.
        -- constructor; [simpl; lia | constructor].
      * unfold INT16_MIN, INT16_MAX in *. cbn [length] in *. lia.
      * cbn [length] in *. lia.
Qed.

Lemma Hook_ignores_priority (P P' : Z) (f : Callable) (e : Event) :
  Hook true P f e = Hook true P' f e.
Proof. rewrite !Hook_unfold. reflexivity. Qed.

Lemma int16_t_add_l (a b : Z) : int16_t (int16_t a + b) = int16_t (a + b).
Proof.
  unfold int16_t. f_equal.
  replace ((a + 32768) mod 65536 - 32768 + b + 32768) with ((a + 32768) mod 65536 + b) by lia.
  rewrite Zplus_mod_idemp_l. f_equal. lia.
Qed.

Lemma counting_int16_t (n : nat) :
  forall a b, int16_t a = int16_t b ->
              map int16_t (counting a n) = map int16_t (counting b n).
Proof.
  induction n as [|n IH]; intros a b E; simpl; [reflexivity|].
  rewrite E. f_equal. apply IH.
  rewrite <- (int16_t_add_l a 1), <- (int16_t_add_l b 1), E. reflexivity.
Qed.

Lemma counting_in_range (n : nat) :
  forall z, INT16_MIN <= z -> z + Z.of_nat n <= INT16_MAX + 1 ->
            map int16_t (counting z n) = counting z n.
Proof.
  induction n as [|n IH]; intros z L U; simpl; [reflexivity|].
  rewrite int16_t_id, IH by (unfold INT16_MIN, INT16_MAX in *; lia). reflexivity.
Qed.

(** The counter values a run of [Hook] calls observes: one after the other,
    as 16-bit signed integers. *)
Lemma HookAll_counter (hooks : list (Z * Callable)) :
  forall e hs e',
    INT16_MIN <= priority_ e <= INT16_MAX ->
    HookAll true hooks e = Ok (hs, e') ->
    map EventHandle.priority hs = map int16_t (counting (priority_ e) (length hooks)) /\
    priority_ e' = int16_t (priority_ e + Z.of_nat (length hooks)).
Proof.
  induction hooks as [|[P f] rest IH]; intros e hs e' R H.
  - simpl in *. injection H as <- <-. split; [reflexivity|].
    now rewrite Z.add_0_r, int16_t_id.
  - cbn [HookAll] in H. apply bind_Ok in H. destruct H as ([h e1] & H1 & H).
    apply bind_Ok in H. destruct H as ([hs' e2] & H2 & H).
    injection H as <- <-. cbn [fst snd] in *.
    apply Hook_Ok in H1. destruct H1 as (_ & -> & _ & ->).
    unfold hook_priority, hook_counter in *.
    apply IH in H2; [|cbn [priority_]; apply int16_t_range].
    cbn [priority_] in H2. destruct H2 as [Hp Hc]. split.
    + cbn [map length counting]. rewrite priority_handle_of, Hp.
      rewrite (int16_t_id (priority_ e)) by exact R. f_equal.
      apply counting_int16_t. apply int16_t_id, int16_t_range.
    + rewrite Hc, int16_t_add_l. f_equal. cbn [length]. lia.
Qed.

(** X15. In order-preserving mode a [Hook] does not look
    at its priority argument: it registers at the value of the counter and
    leaves the counter one higher, as a 16-bit signed integer. While the
    counter has not wrapped around (every key of the map is below it) and
    the N registrations do not take it past 32767 + 1, the N calls of [Hook]
    all succeed, their handles carry the counter values c, c+1, ..., and
    [Invoke] then makes the effects of the calls registered before, followed
    by those of the N callables in the order they were hooked. *)
Theorem Hook_order_preserved_until_wrap
  {Args : Type} (hooks : list (Z * Callable)) (e : Event) (args : Args) :
  reachable true e -> initialized_ e = true -> Unwrapped e ->
  priority_ e + Z.of_nat (length hooks) <= INT16_MAX + 1 ->
  (forall P P' f, Hook true P f e = Hook true P' f e) /\
  (forall P f h e1,
     Hook true P f e = Ok (h, e1) ->
     EventHandle.priority h = priority_ e /\
     priority_ e1 = int16_t (priority_ e + 1)) /\
  exists hs e',
    HookAll true hooks e = Ok (hs, e') /\
    map EventHandle.priority hs = counting (priority_ e) (length hooks) /\
    Invoke e' args =
      Ok (map (fun c => invoke c args) (Calls e)
          ++ map (fun hook => effect_of (snd hook) args) hooks).
Proof.
  intros R I U B. split.
  { intros P P' f. apply Hook_ignores_priority. }
  split.
  { intros P f h e1 H. apply Hook_Ok in H. destruct H as (_ & -> & _ & ->).
    split; [apply priority_handle_of | reflexivity]. }
  pose proof (inv_counter _ (reachable_Inv _ _ R)) as Rg.
  eexists. eexists. split; [apply HookAll_ordered; assumption|].
  split; [apply ordered_handles_priorities|].
  rewrite Invoke_Calls by reflexivity. unfold Calls. cbn [callList_].
  rewrite flat_map_app, map_app, ordered_buckets_effects. reflexivity.
Qed.

Lemma Hook_order_preserved_until_wrap_witness :
  exists hs e',
    HookAll true three_functions (Event_bound nullptr) = Ok (hs, e') /\
    map EventHandle.priority hs = [0; 1; 2] /\
    Invoke e' 7 = Ok [called 4096 7; called 4112 7; called 4128 7].
Proof.
  apply (Hook_order_preserved_until_wrap three_functions (Event_bound nullptr) 7).
  - apply reachable_bound.
  - reflexivity.
  - constructor.
  - unfold INT16_MAX. simpl. lia.
Defined.

(** After 32768 registrations the counter is back at -32768, and the next
    callable hooked is the first one invoked. *)
Lemma wrap_reorders {Args : Type} (n : nat) (f g : uintptr_t) (args : Args) :
  Z.of_nat n = INT16_MAX + 1 -> f <> g ->
  exists hs e,
    HookAll true (repeat (0, function_pointer f) n ++ [(0, function_pointer g)])
            (Event_bound nullptr) = Ok (hs, e) /\
    Invoke e args = Ok (called g args :: repeat (called f args) n) /\
    Invoke e args <>
      Ok (map (fun hook => effect_of (snd hook) args)
              (repeat (0, function_pointer f) n ++ [(0, function_pointer g)])).
Proof.
  intros N D.
  set (hooks := repeat (0, function_pointer f) n).
  assert (L : Z.of_nat (length hooks) = INT16_MAX + 1).
  { unfold hooks. now rewrite repeat_length. }
  pose proof (HookAll_ordered hooks (Event_bound nullptr) eq_refl (Forall_nil _)) as H1.
  cbn [Event_bound BindTo Event_default priority_ callList_ boundTo app] in H1.
  rewrite L in H1. change (int16_t (0 + (INT16_MAX + 1))) with INT16_MIN in H1.
  specialize (H1 ltac:(unfold INT16_MIN, INT16_MAX; lia)
                 ltac:(unfold INT16_MAX; lia)).
  set (e1 := mkEvent nullptr (ordered_buckets 0 hooks) INT16_MIN true) in *.
  assert (H2 : HookAll true [(0, function_pointer g)] e1 =
               Ok ([handle_of (function_pointer g) INT16_MIN],
                   mkEvent nullptr
                     ((INT16_MIN, [call_of (function_pointer g) INT16_MIN])
                      :: ordered_buckets 0 hooks)
                     (int16_t (INT16_MIN + 1)) true)).
  { cbn [HookAll]. rewrite (Hook_ordered_first 0 (function_pointer g) e1 eq_refl).
    - reflexivity.
    - cbn [e1 priority_ callList_].
      eapply Forall_impl; [|apply ordered_buckets_keys].
      intros b. cbn beta. unfold INT16_MIN. lia. }
  pose proof (HookAll_app true _ _ _ _ _ _ _ H1 H2) as H.
  eexists. eexists. split; [exact H|].
  rewrite Invoke_Calls by reflexivity. unfold Calls. cbn [callList_ flat_map snd app].
  cbn [map]. rewrite ordered_buckets_effects. unfold hooks. rewrite map_repeat.
  cbn [snd effect_of invoke call_of Call_callable function].
  split; [reflexivity|].
  destruct n as [|n']; [unfold INT16_MAX in N; simpl in N; lia|].
  cbn [repeat app map snd effect_of]. intros X. injection X as X _. congruence.
Qed.

(** C4. The specification, like the comment on [KeepOrder], has [Invoke]
    observe the callables in the order they were hooked, for every run of
    [Hook] calls in order-preserving mode. The counter is a 16-bit integer
    and nothing guards its wrap: the same function hooked 32768 times and
    then another one hooked once, [Invoke] calls the last one hooked
    first. *)
Lemma Hook_order_lost_after_wrap :
  exists hs e,
    HookAll true
      (repeat (0, function_pointer 4096) (Z.to_nat 32768) ++ [(0, function_pointer 8192)])
      (Event_bound nullptr) = Ok (hs, e) /\
    Invoke e tt = Ok (called 8192 tt :: repeat (called 4096 tt) (Z.to_nat 32768)) /\
    Invoke e tt <>
      Ok (map (fun hook => effect_of (snd hook) tt)
              (repeat (0, function_pointer 4096) (Z.to_nat 32768)
               ++ [(0, function_pointer 8192)])).
Proof.
  apply wrap_reorders.
  - unfold INT16_MAX. lia.
  - discriminate.
Qed.

Lemma counting_lower (n : nat) :
  forall z, Forall (fun x => z <= x) (counting z n).
Proof.
  induction n as [|n IH]; intros z; simpl; constructor; [lia|].
  eapply Forall_impl; [|apply IH]. cbn beta. intros x. lia.
Qed.

Lemma counting_increasing (n : nat) :
  forall z, StronglySorted Z.lt (counting z n).
Proof.
  induction n as [|n IH]; intros z; simpl; constructor; [apply IH|].
  eapply Forall_impl; [|apply counting_lower]. cbn beta. intros x. lia.
Qed.

(** X16. In order-preserving mode the i-th of a run of
    [Hook] calls observes the counter value c + i taken as a 16-bit signed
    integer, and the run leaves the counter at c + N so taken: the counter
    advances by one on every registration. As long as the run does not take
    the counter past 32767 + 1 the values observed are c, c+1, ..., each
    strictly greater than the one before. *)
Theorem order_counter_advances
  (hooks : list (Z * Callable)) (e : Event) (hs : list EventHandle.t) (e' : Event) :
  reachable true e -> HookAll true hooks e = Ok (hs, e') ->
  map EventHandle.priority hs = map int16_t (counting (priority_ e) (length hooks)) /\
  priority_ e' = int16_t (priority_ e + Z.of_nat (length hooks)) /\
  (priority_ e + Z.of_nat (length hooks) <= INT16_MAX + 1 ->
   map EventHandle.priority hs = counting (priority_ e) (length hooks) /\
   StronglySorted Z.lt (map EventHandle.priority hs)).
Proof.
  intros R H. pose proof (inv_counter _ (reachable_Inv _ _ R)) as Rg.
  destruct (HookAll_counter hooks e hs e' Rg H) as [Hp Hc].
  split; [exact Hp|]. split; [exact Hc|].
  intros B. rewrite Hp, counting_in_range by tauto.
  split; [reflexivity | apply counting_increasing].
Qed.

Lemma order_counter_advances_witness :
  map EventHandle.priority (ordered_handles 0 three_functions) = [0; 1; 2] /\
  priority_ (hooked true three_functions (Event_bound nullptr)) = 3.
Proof.
  assert (H : HookAll true three_functions (Event_bound nullptr)
              = Ok (ordered_handles 0 three_functions,
                    hooked true three_functions (Event_bound nullptr)))
    by reflexivity.
  split.
  - exact (proj1 (order_counter_advances _ _ _ _ (reachable_bound true nullptr) H)).
  - exact (proj1 (proj2 (order_counter_advances _ _ _ _ (reachable_bound true nullptr) H))).
Defined.

(** After 32767 registrations the counter is 32767; the next [Hook]
    observes it and the one after observes -32768. *)
Lemma counter_wraps (n : nat) (f : uintptr_t) :
  Z.of_nat n = INT16_MAX ->
  let e := hooked true (repeat (0, function_pointer f) n) (Event_bound nullptr) in
  reachable true e /\
  exists h1 e1 h2 e2,
    Hook true 0 (function_pointer f) e = Ok (h1, e1) /\
    Hook true 0 (function_pointer f) e1 = Ok (h2, e2) /\
    EventHandle.priority h1 = INT16_MAX /\ EventHandle.priority h2 = INT16_MIN /\
    priority_ e = INT16_MAX /\ priority_ e1 = INT16_MIN.
Proof.
  intros N e.
  split; [apply hooked_reachable, reachable_bound|].
  set (hooks := repeat (0, function_pointer f) n) in *.
  assert (L : Z.of_nat (length hooks) = INT16_MAX).
  { unfold hooks. now rewrite repeat_length. }
  pose proof (HookAll_ordered hooks (Event_bound nullptr) eq_refl (Forall_nil _)) as H1.
  cbn [Event_bound BindTo Event_default priority_ callList_ boundTo app] in H1.
  rewrite L in H1. change (int16_t (0 + INT16_MAX)) with INT16_MAX in H1.
  specialize (H1 ltac:(unfold INT16_MIN, INT16_MAX; lia)
                 ltac:(unfold INT16_MAX; lia)).
  assert (E : e = mkEvent nullptr (ordered_buckets 0 hooks) INT16_MAX true).
  { unfold e, hooked. rewrite H1. reflexivity. }
  rewrite E.
  pose proof (ordered_buckets_keys hooks 0) as K. rewrite L in K.
  eexists. eexists. eexists. eexists.
  split.
  { apply Hook_ordered_last; [reflexivity|]. unfold Unwrapped. cbn [priority_ callList_].
    eapply Forall_impl; [|exact K]. cbn beta. intros b. lia. }
  split.
  { apply Hook_ordered_first; [reflexivity|]. cbn [priority_ callList_].
    change (int16_t (INT16_MAX + 1)) with INT16_MIN.
    apply Forall_app. split.
    - eapply Forall_impl; [|exact K]. cbn beta. intros b. unfold INT16_MIN. lia.
    - constructor; [|constructor]. reflexivity. }
  repeat split.
Qed.

(** C8. The specification, like the comment on [priority_], has the
    counter increase on every registration in order-preserving mode. In the
    registry reached by 32767 registrations the next [Hook] observes 32767
    and the one after it -32768. *)
Lemma order_counter_wraps_at_INT16_MAX :
  reachable true
    (hooked true (repeat (0, function_pointer 4096) (Z.to_nat 32767)) (Event_bound nullptr)) /\
  exists h1 e1 h2 e2,
    Hook true 0 (function_pointer 4096)
      (hooked true (repeat (0, function_pointer 4096) (Z.to_nat 32767))
              (Event_bound nullptr)) = Ok (h1, e1) /\
    Hook true 0 (function_pointer 4096) e1 = Ok (h2, e2) /\
    EventHandle.priority h1 = 32767 /\ EventHandle.priority h2 = -32768.
Proof.
  destruct (counter_wraps (Z.to_nat 32767) 4096) as (R & h1 & e1 & h2 & e2 & H).
  { unfold INT16_MAX. lia. }
  split; [exact R|]. exists h1, e1, h2, e2.
  destruct H as (H1 & H2 & P1 & P2 & _).
  split; [exact H1|]. split; [exact H2|]. split; [exact P1 | exact P2].
Qed.


(** * Further properties of the registry *)

(** ** More on the map of buckets *)

Lemma at_key_set (k k' : Z) (v : USet.t) (m : CallMap.t) :
  CallMap.at_key k (CallMap.set k' v m) = if k =? k' then v else CallMap.at_key k m.
Proof.
  induction m as [|[k0 s0] m IH]; simpl.
  - destruct (Z.ltb_spec k k'), (Z.eqb_spec k k'); try lia; reflexivity.
  - destruct (Z.ltb_spec k' k0) as [L|L]; simpl.
    + destruct (Z.ltb_spec k k'), (Z.eqb_spec k k'), (Z.ltb_spec k k0); try lia; reflexivity.
    + destruct (Z.eqb_spec k' k0) as [->|N]; simpl.
      * destruct (Z.ltb_spec k k0), (Z.eqb_spec k k0); try lia; reflexivity.
      * rewrite IH.
        destruct (Z.ltb_spec k k0), (Z.eqb_spec k k0), (Z.eqb_spec k k');
          try lia; reflexivity.
Qed.

Lemma set_set (k : Z) (v w : USet.t) (m : CallMap.t) :
  CallMap.set k v (CallMap.set k w m) = CallMap.set k v m.
Proof.
  induction m as [|[k0 s0] m IH]; simpl.
  - now rewrite Z.ltb_irrefl, Z.eqb_refl.
  - destruct (Z.ltb_spec k k0) as [L|L]; simpl.
    + now rewrite Z.ltb_irrefl, Z.eqb_refl.
    + destruct (Z.eqb_spec k k0) as [->|N]; simpl.
      * now rewrite Z.ltb_irrefl, Z.eqb_refl.
      * destruct (Z.ltb_spec k k0); [lia|].
        destruct (Z.eqb_spec k k0); [lia|]. now rewrite IH.
Qed.

Lemma Calls_set_at_key (k : Z) (m : CallMap.t) :
  flat_map snd (CallMap.set k (CallMap.at_key k m) m) = flat_map snd m.
Proof.
  destruct (Calls_set k m) as (l1 & l2 & F & S). now rewrite S, F.
Qed.

Lemma at_key_incl (k : Z) (m : CallMap.t) (c : Call) :
  In c (CallMap.at_key k m) -> In c (flat_map snd m).
Proof.
  intros I. destruct (at_key_In k m) as [E|E].
  - rewrite E in I. contradiction.
  - apply in_flat_map. exists (k, CallMap.at_key k m). auto.
Qed.

Lemma at_key_ascending (k : Z) (s : USet.t) (m : CallMap.t) :
  ascending m -> In (k, s) m -> CallMap.at_key k m = s.
Proof.
  unfold ascending. induction m as [|[k0 s0] m IH]; simpl; intros A I; [contradiction|].
  apply StronglySorted_inv in A. destruct A as [A F].
  destruct I as [E|I].
  - injection E as -> ->. now rewrite Z.ltb_irrefl, Z.eqb_refl.
  - rewrite Forall_forall in F.
    assert (L : k0 < k) by (apply F, in_map_iff; exists (k, s); auto).
    destruct (Z.ltb_spec k k0); [lia|]. destruct (Z.eqb_spec k k0); [lia|]. auto.
Qed.

(** In a registry that keeps the invariant, a handle is registered
    somewhere exactly when it is in the bucket of its priority. *)
Lemma registered_in_its_bucket (e : Event) (h : EventHandle.t) :
  Inv e ->
  (In h (map handle (Calls e)) <->
   In h (map handle (CallMap.at_key (EventHandle.priority h) (callList_ e)))).
Proof.
  intros [A _ C _ _]. split; intros I.
  - apply in_map_iff in I. destruct I as (c & Hc & Ic).
    unfold Calls in Ic. apply in_flat_map in Ic. destruct Ic as ([k s] & Ib & Ic).
    rewrite Forall_forall in C. pose proof (C _ Ib) as Cb. simpl in Cb, Ic.
    rewrite Forall_forall in Cb. destruct (Cb c Ic) as (Hp & _).
    rewrite <- Hc, Hp, (at_key_ascending k s _ A Ib). now apply in_map.
  - apply in_map_iff in I. destruct I as (c & Hc & Ic).
    apply in_map_iff. exists c. split; [exact Hc|]. eapply at_key_incl, Ic.
Qed.

Lemma find_erase_snoc (h : EventHandle.t) (s : USet.t) (c : Call) :
  ~ In h (map handle s) -> handle c = h -> USet.find_erase h (s ++ [c]) = Some s.
Proof.
  intros N Hc. induction s as [|x s IH]; simpl.
  - unfold Internal.eqb_handle. rewrite Hc, EventHandle_eqb_refl. reflexivity.
  - simpl in N. unfold Internal.eqb_handle.
    destruct (EventHandle.eqb (handle x) h) eqn:E.
    + apply EventHandle_eqb_eq in E. tauto.
    + rewrite IH by tauto. reflexivity.
Qed.

Lemma Hook_initialized (KeepOrder : bool) (P : Z) (f : Callable) (e : Event)
  (h : EventHandle.t) (e' : Event) :
  Hook KeepOrder P f e = Ok (h, e') ->
  initialized_ e = true /\ initialized_ e' = true /\ boundTo e' = boundTo e.
Proof.
  intros H. apply Hook_Ok in H. destruct H as (I & _ & _ & ->). auto.
Qed.

(** ** Use before initialization *)

(** X1. A registry the program can build that has not been bound holds no
    call, and [Hook], [Invoke], [Unhook], [CallListSize] and [Clear] on it
    fail the assertion of [AssertInitialized]; [BindTo] then makes it an
    empty registry that can be used: size 0, nothing to invoke, every
    registration accepted. *)
Theorem uninitialized_registry (KeepOrder : bool) (e : Event) :
  reachable KeepOrder e -> initialized_ e = false ->
  callList_ e = [] /\
  (forall P f, Hook KeepOrder P f e = Fatal assert_initialized) /\
  (forall (Args : Type) (args : Args), Invoke e args = Fatal assert_initialized) /\
  (forall h, Unhook h e = Fatal assert_initialized) /\
  CallListSize e = Fatal assert_initialized /\
  Clear e = Fatal assert_initialized /\
  (forall bindTo,
     CallListSize (BindTo bindTo e) = Ok 0 /\
     (forall (Args : Type) (args : Args), Invoke (BindTo bindTo e) args = Ok []) /\
     (forall P f, exists h e', Hook KeepOrder P f (BindTo bindTo e) = Ok (h, e'))).
Proof.
  intros R I. pose proof (inv_uninitialized _ (reachable_Inv _ _ R) I) as M.
  split; [exact M|].
  split; [intros P f; now apply Hook_uninitialized|].
  split; [intros Args args; unfold Invoke, AssertInitialized; now rewrite I|].
  split; [intros h; unfold Unhook, AssertInitialized; now rewrite I|].
  split; [unfold CallListSize, AssertInitialized; now rewrite I|].
  split; [unfold Clear, AssertInitialized; now rewrite I|].
  intros bindTo. split; [|split].
  - rewrite CallListSize_Calls by reflexivity. unfold Calls. simpl. now rewrite M.
  - intros Args args. rewrite Invoke_Calls by reflexivity. unfold Calls. simpl. now rewrite M.
  - intros P f. eexists. eexists. apply Hook_Ok.
    split; [reflexivity|]. split; [reflexivity|]. split; [|reflexivity].
    simpl. rewrite M. simpl. tauto.
Qed.

Lemma uninitialized_registry_witness :
  CallListSize Event_default = Fatal assert_initialized /\
  CallListSize (BindTo 4096 Event_default) = Ok 0.
Proof.
  pose proof (uninitialized_registry false Event_default (reach_default false) eq_refl)
    as (_ & _ & _ & _ & S & _ & B).
  split; [exact S | exact (proj1 (B 4096))].
Defined.

(** ** Registration *)

(** X3. A [Hook] that returns puts exactly one call into the registry, the
    one built from the callable at the priority of the handle returned, and
    puts it into the bucket of that priority: up to their order, the calls
    of that bucket and of the registry are the old ones and the new one, and
    so are the effects of [Invoke]; [CallListSize] is one more; every other
    bucket and the owner of the registry are as before. *)
Theorem Hook_adds_one_call
  (KeepOrder : bool) (P : Z) (f : Callable) (e : Event) (h : EventHandle.t) (e' : Event) :
  Hook KeepOrder P f e = Ok (h, e') ->
  h = handle_of f (EventHandle.priority h) /\
  Permutation (Calls e') (call_of f (EventHandle.priority h) :: Calls e) /\
  Permutation (CallMap.at_key (EventHandle.priority h) (callList_ e'))
              (call_of f (EventHandle.priority h)
               :: CallMap.at_key (EventHandle.priority h) (callList_ e)) /\
  (forall k, k <> EventHandle.priority h ->
             CallMap.at_key k (callList_ e') = CallMap.at_key k (callList_ e)) /\
  (forall (Args : Type) (args : Args),
     exists t t',
       Invoke e args = Ok t /\ Invoke e' args = Ok t' /\
       Permutation t' (effect_of f args :: t)) /\
  CallListSize e = Ok (Z.of_nat (length (Calls e))) /\
  CallListSize e' = Ok (Z.of_nat (length (Calls e)) + 1) /\
  boundTo e' = boundTo e.
Proof.
  intros H. destruct (Hook_initialized _ _ _ _ _ _ H) as (I & I' & B).
  apply Hook_Ok in H. destruct H as (_ & -> & N & ->).
  rewrite priority_handle_of. set (p := hook_priority KeepOrder P e) in *.
  destruct (Calls_set p (callList_ e)) as (L1 & L2 & F & S).
  match goal with |- _ /\ Permutation (Calls ?r) _ /\ _ => set (e' := r) in * end.
  assert (Pm : Permutation (Calls e') (call_of f p :: Calls e)).
  { unfold e', Calls. cbn [callList_]. rewrite S, F, <- !app_assoc.
    cbn [app]. rewrite (app_assoc L1 _ (call_of f p :: L2)).
    symmetry. apply Permutation_cons_app. now rewrite app_assoc. }
  split; [reflexivity|]. split; [exact Pm|].
  split.
  { unfold e'. cbn [callList_]. rewrite at_key_set, Z.eqb_refl.
    symmetry. apply Permutation_cons_append. }
  split.
  { intros k Nk. unfold e'. cbn [callList_]. rewrite at_key_set.
    destruct (Z.eqb_spec k p); [contradiction | reflexivity]. }
  split.
  { intros Args args. eexists. eexists.
    split; [apply Invoke_Calls, I|]. split; [apply Invoke_Calls, I'|].
    rewrite <- invoke_call_of with (p := p).
    change (invoke (call_of f p) args :: map (fun c => invoke c args) (Calls e))
      with (map (fun c => invoke c args) (call_of f p :: Calls e)).
    apply Permutation_map, Pm. }
  split; [now apply CallListSize_Calls|].
  split; [|reflexivity].
  rewrite CallListSize_Calls by exact I'.
  rewrite (Permutation_length Pm). simpl length. f_equal. lia.
Qed.

Lemma Hook_adds_one_call_witness :
  exists h e',
    Hook false 3 (function_pointer 8192) example_explicit = Ok (h, e') /\
    CallListSize e' = Ok 4.
Proof.
  eexists. eexists. split; [reflexivity|].
  exact (proj1 (proj2 (proj2 (proj2 (proj2 (proj2 (proj2
           (Hook_adds_one_call false 3 (function_pointer 8192) example_explicit _ _
              eq_refl)))))))).
Defined.

(** X2. Unhooking the handle a [Hook] has just returned always succeeds and
    undoes the registration: every bucket, and so the registry, holds the
    calls it held before the [Hook], up to their order; [Invoke] makes the
    same effects up to order and [CallListSize] is as before. The order
    counter is not put back. *)
Theorem Hook_then_Unhook
  (KeepOrder : bool) (P : Z) (f : Callable) (e : Event) (h : EventHandle.t) (e' : Event) :
  Hook KeepOrder P f e = Ok (h, e') ->
  exists e'',
    Unhook h e' = Ok e'' /\
    Permutation (Calls e'') (Calls e) /\
    (forall k, Permutation (CallMap.at_key k (callList_ e''))
                           (CallMap.at_key k (callList_ e))) /\
    (forall (Args : Type) (args : Args),
       exists t t'',
         Invoke e args = Ok t /\ Invoke e'' args = Ok t'' /\ Permutation t'' t) /\
    CallListSize e'' = CallListSize e /\
    boundTo e'' = boundTo e /\
    priority_ e'' = hook_counter KeepOrder e.
Proof.
  intros H. apply Hook_Ok in H. destruct H as (I & -> & N & ->).
  set (p := hook_priority KeepOrder P e) in *.
  eexists. split.
  { apply Unhook_Ok. split; [reflexivity|].
    rewrite priority_handle_of. cbn [callList_].
    rewrite at_key_set, Z.eqb_refl.
    exists (CallMap.at_key p (callList_ e)). split; [|reflexivity].
    apply find_erase_snoc; [exact N | apply handle_call_of]. }
  cbn [boundTo callList_ priority_ initialized_].
  match goal with |- Permutation (Calls ?r) _ /\ _ => set (e'' := r) in * end.
  assert (E : Calls e'' = Calls e).
  { unfold e'', Calls. cbn [callList_]. now rewrite set_set, Calls_set_at_key. }
  split; [now rewrite E|]. split; [|split; [|split; [|split; reflexivity]]].
  - intros k. unfold e''. cbn [callList_]. rewrite set_set, at_key_set.
    destruct (Z.eqb_spec k p) as [->|_]; reflexivity.
  - intros Args args. eexists. eexists.
    split; [apply Invoke_Calls, I|]. split; [apply Invoke_Calls; reflexivity|].
    now rewrite E.
  - rewrite (CallListSize_Calls e I).
    rewrite CallListSize_Calls by reflexivity. now rewrite E.
Qed.

Lemma Hook_then_Unhook_witness :
  exists h e' e'',
    Hook false 3 (function_pointer 8192) example_explicit = Ok (h, e') /\
    Unhook h e' = Ok e'' /\
    Permutation (Calls e'') (Calls example_explicit).
Proof.
  eexists. eexists.
  destruct (Hook_then_Unhook false 3 (function_pointer 8192) example_explicit _ _ eq_refl)
    as (e'' & U & C & _).
  exists e''. split; [reflexivity|]. split; [exact U | exact C].
Defined.

Lemma Hook_inserts (KeepOrder : bool) (P : Z) (f : Callable) (e : Event)
  (h : EventHandle.t) (e' : Event) :
  Hook KeepOrder P f e = Ok (h, e') ->
  exists l1 l2,
    Calls e = l1 ++ l2 /\ Calls e' = l1 ++ call_of f (EventHandle.priority h) :: l2.
Proof.
  intros H. apply Hook_Ok in H. destruct H as (_ & -> & _ & ->).
  rewrite priority_handle_of. set (p := hook_priority KeepOrder P e).
  destruct (Calls_set p (callList_ e)) as (L1 & L2 & F & S).
  exists (L1 ++ CallMap.at_key p (callList_ e)), L2. unfold Calls. simpl.
  rewrite S, F, <- !app_assoc. auto.
Qed.

Lemma HookAll_initialized (KeepOrder : bool) (hooks : list (Z * Callable)) :
  forall e hs e',
    HookAll KeepOrder hooks e = Ok (hs, e') ->
    (initialized_ e = true -> initialized_ e' = true) /\ boundTo e' = boundTo e.
Proof.
  induction hooks as [|[P f] rest IH]; simpl; intros e hs e' H.
  - injection H as _ <-. auto.
  - apply bind_Ok in H. destruct H as ([h e1] & H1 & H).
    apply bind_Ok in H. destruct H as ([hs' e2] & H2 & H).
    injection H as _ <-. simpl in *.
    destruct (Hook_initialized _ _ _ _ _ _ H1) as (_ & I1 & B1).
    destruct (IH _ _ _ H2) as (I2 & B2). split; [auto | congruence].
Qed.

(** X4. A run of [Hook] calls that all return registers exactly the
    callables given, each once, beside the calls the registry held: the
    calls of the registry are, up to their order, the old ones and the new
    ones; there is one handle per callable; in explicit-priority mode each
    handle carries the priority given; and [CallListSize] has grown by the
    number of callables. *)
Theorem HookAll_adds_calls (KeepOrder : bool) (hooks : list (Z * Callable)) :
  forall e hs e',
    HookAll KeepOrder hooks e = Ok (hs, e') ->
    length hs = length hooks /\
    Permutation (Calls e') (Calls e ++ new_calls hooks hs) /\
    (KeepOrder = false -> map EventHandle.priority hs = map fst hooks) /\
    (initialized_ e = true ->
     CallListSize e' = Ok (Z.of_nat (length (Calls e)) + Z.of_nat (length hooks))).
Proof.
  assert (core : forall e hs e',
    HookAll KeepOrder hooks e = Ok (hs, e') ->
    length hs = length hooks /\
    Permutation (Calls e') (Calls e ++ new_calls hooks hs) /\
    (KeepOrder = false -> map EventHandle.priority hs = map fst hooks)).
  { induction hooks as [|[P f] rest IH]; simpl; intros e hs e' H.
    - injection H as <- <-. unfold new_calls. simpl. rewrite app_nil_r. auto.
    - apply bind_Ok in H. destruct H as ([h e1] & H1 & H).
      apply bind_Ok in H. destruct H as ([hs' e2] & H2 & H).
      injection H as <- <-. simpl in *.
      destruct (IH _ _ _ H2) as (L & Pm & Pr).
      destruct (Hook_inserts _ _ _ _ _ _ H1) as (l1 & l2 & E & E1).
      split; [now rewrite L|]. split.
      + unfold new_calls in *. simpl. rewrite Pm, E1, E.
        rewrite <- !app_assoc. apply Permutation_app_head. simpl.
        apply Permutation_cons_app. reflexivity.
      + intros K. rewrite (Pr K). f_equal.
        apply Hook_Ok in H1. destruct H1 as (_ & -> & _).
        rewrite priority_handle_of. unfold hook_priority. now rewrite K. }
  intros e hs e' H. destruct (core e hs e' H) as (L & Pm & Pr).
  split; [exact L|]. split; [exact Pm|]. split; [exact Pr|].
  intros I. destruct (HookAll_initialized _ _ _ _ _ H) as (I' & _).
  rewrite CallListSize_Calls by auto.
  rewrite (Permutation_length Pm), length_app. unfold new_calls.
  rewrite length_map, length_combine, L, Nat.min_id. f_equal. lia.
Qed.

Lemma HookAll_adds_calls_witness :
  CallListSize (hooked true three_functions (Event_bound nullptr)) = Ok 3.
Proof.
  assert (H : HookAll true three_functions (Event_bound nullptr)
              = Ok (ordered_handles 0 three_functions,
                    hooked true three_functions (Event_bound nullptr)))
    by reflexivity.
  exact (proj2 (proj2 (proj2 (HookAll_adds_calls true three_functions _ _ _ H))) eq_refl).
Defined.

(** X5. On an initialized registry the program can build, a [Hook] returns
    exactly when no call anywhere in the registry has the handle it is about
    to mint (priority, kind of callable, token); otherwise it fails the
    assertion of [emplace_back]. *)
Theorem Hook_succeeds_iff_unregistered
  (KeepOrder : bool) (P : Z) (f : Callable) (e : Event) :
  reachable KeepOrder e -> initialized_ e = true ->
  ((exists h e', Hook KeepOrder P f e = Ok (h, e')) <->
   ~ In (handle_of f (hook_priority KeepOrder P e)) (map handle (Calls e))) /\
  (In (handle_of f (hook_priority KeepOrder P e)) (map handle (Calls e)) ->
   Hook KeepOrder P f e = Fatal assert_was_added).
Proof.
  intros R I. pose proof (reachable_Inv _ _ R) as V.
  pose proof (registered_in_its_bucket e
                (handle_of f (hook_priority KeepOrder P e)) V) as B.
  rewrite priority_handle_of in B. split; [split|].
  - intros (h & e' & H). apply Hook_Ok in H. destruct H as (_ & -> & N & _).
    now rewrite B.
  - intros N. eexists. eexists. apply Hook_Ok.
    split; [exact I|]. split; [reflexivity|]. split; [|reflexivity]. now rewrite <- B.
  - intros D. apply Hook_duplicate; [exact I|]. now rewrite <- B.
Qed.

Lemma Hook_succeeds_iff_unregistered_witness :
  (exists h e', Hook false 2 (function_pointer 4112) example_explicit = Ok (h, e')) /\
  Hook false 1 (function_pointer 4112) example_explicit = Fatal assert_was_added.
Proof.
  pose proof (hooked_reachable false three_functions _ (reachable_bound false nullptr)) as R.
  split.
  - apply (proj1 (Hook_succeeds_iff_unregistered false 2 (function_pointer 4112)
                    example_explicit R eq_refl)).
    simpl. intros [H|[H|[H|[]]]]; discriminate.
  - apply (proj2 (Hook_succeeds_iff_unregistered false 1 (function_pointer 4112)
                    example_explicit R eq_refl)).
    simpl. left. reflexivity.
Defined.

(** X6. The token of a member-function registration is the exclusive or of
    the object's address and the member pointer, so in explicit-priority
    mode a second registration at the same priority whose object and member
    give the same exclusive or is taken for a duplicate and fails the
    assertion of [emplace_back], whatever the object and the member are. *)
Theorem Hook_member_xor_collision
  (P : Z) (c1 f1 c2 f2 : uintptr_t) (e : Event) (h : EventHandle.t) (e1 : Event) :
  Hook false P (member_function c1 f1) e = Ok (h, e1) ->
  Z.lxor c1 f1 = Z.lxor c2 f2 ->
  Hook false P (member_function c2 f2) e1 = Fatal assert_was_added.
Proof.
  intros H X. apply Hook_Ok in H. destruct H as (_ & -> & _ & ->).
  apply Hook_duplicate; [reflexivity|].
  unfold hook_priority. cbn [callList_]. rewrite at_key_set, Z.eqb_refl.
  rewrite map_app. apply in_or_app. right. simpl. left.
  unfold handle_of. now rewrite X.
Qed.

Lemma Hook_member_xor_collision_witness :
  exists h e1,
    Hook false 0 (member_function 4096 4206592) (Event_bound nullptr) = Ok (h, e1) /\
    Hook false 0 (member_function 8192 4194304) e1 = Fatal assert_was_added.
Proof.
  eexists. eexists. split; [reflexivity|].
  apply (Hook_member_xor_collision 0 4096 4206592 8192 4194304 (Event_bound nullptr) _ _
           eq_refl).
  reflexivity.
Defined.

(** ** Deregistration *)

Lemma Unhook_not_found (h : EventHandle.t) (e : Event) :
  initialized_ e = true ->
  ~ In h (map handle (CallMap.at_key (EventHandle.priority h) (callList_ e))) ->
  Unhook h e = Fatal assert_call_found.
Proof.
  intros I N. rewrite Unhook_RemoveCall.
  unfold RemoveCall, AssertInitialized, EventHandle.GetPriority. rewrite I. simpl.
  apply find_erase_None in N. now rewrite N.
Qed.

(** X7. In a registry the program can build every call carries one of the
    four kinds of callable, so [Unhook] with a handle of any other kind
    fails; in particular with a handle that has been [Reset], which tests
    false, and with the default-constructed handle. *)
Theorem Unhook_invalid_handle_fatal (KeepOrder : bool) (e : Event) :
  reachable KeepOrder e ->
  (forall h,
     EventHandle.identifier h < Identifier.Function \/
     Identifier.MemberFunction < EventHandle.identifier h ->
     fatal (Unhook h e)) /\
  (forall h, fatal (Unhook (EventHandle.Reset h) e) /\
             EventHandle.to_bool (EventHandle.Reset h) = false) /\
  fatal (Unhook EventHandle.empty e).
Proof.
  intros R. pose proof (reachable_Inv _ _ R) as V.
  assert (G : forall h,
    EventHandle.identifier h < Identifier.Function \/
    Identifier.MemberFunction < EventHandle.identifier h -> fatal (Unhook h e)).
  { intros h O. apply Unhook_fatal. right. intros I.
    apply in_map_iff in I. destruct I as (c & Hc & Ic).
    pose proof (at_key_Forall (fun b => Forall (call_ok (fst b)) (snd b))
                  (EventHandle.priority h) (callList_ e) (inv_calls _ V)
                  (Forall_nil _)) as F.
    simpl in F. rewrite Forall_forall in F. destruct (F c Ic) as (_ & _ & Rg).
    rewrite Hc in Rg. lia. }
  split; [exact G|]. split.
  - intros h. split; [|reflexivity]. apply G. left. reflexivity.
  - apply G. left. reflexivity.
Qed.

Lemma Unhook_invalid_handle_fatal_witness :
  fatal (Unhook EventHandle.empty example_explicit).
Proof.
  exact (proj2 (proj2 (Unhook_invalid_handle_fatal false example_explicit
                         (hooked_reachable false three_functions _
                            (reachable_bound false nullptr))))).
Defined.

(** X8. In a registry the program can build, a handle can be unhooked once:
    after an [Unhook] that returned, a second [Unhook] with the same handle
    fails the assertion of [RemoveCall]. The first one leaves every bucket
    of another priority, the owner of the registry and the order counter as
    they were. *)
Theorem Unhook_twice_fatal (KeepOrder : bool) (e : Event) (h : EventHandle.t) (e' : Event) :
  reachable KeepOrder e -> Unhook h e = Ok e' ->
  Unhook h e' = Fatal assert_call_found /\
  (forall k, k <> EventHandle.priority h ->
             CallMap.at_key k (callList_ e') = CallMap.at_key k (callList_ e)) /\
  boundTo e' = boundTo e /\
  priority_ e' = priority_ e.
Proof.
  intros R H. pose proof (reachable_Inv _ _ R) as V.
  destruct (Unhook_removes h e e' V H) as (l1 & c & l2 & _ & _ & _ & _ & N & _ & I').
  split.
  { apply Unhook_not_found; [exact I'|]. intros I. apply N.
    apply in_map_iff in I. destruct I as (d & Hd & Id).
    apply in_map_iff. exists d. split; [exact Hd|]. eapply at_key_incl, Id. }
  apply Unhook_Ok in H. destruct H as (_ & s' & _ & ->). simpl.
  split; [|split; reflexivity].
  intros k Nk. rewrite at_key_set.
  destruct (Z.eqb_spec k (EventHandle.priority h)); [contradiction | reflexivity].
Qed.

Lemma Unhook_twice_fatal_witness :
  exists e',
    Unhook (EventHandle.make 3 Identifier.Function 4128) example_explicit = Ok e' /\
    Unhook (EventHandle.make 3 Identifier.Function 4128) e' = Fatal assert_call_found.
Proof.
  eexists. split; [reflexivity|].
  apply (Unhook_twice_fatal false example_explicit
           (EventHandle.make 3 Identifier.Function 4128) _
           (hooked_reachable false three_functions _ (reachable_bound false nullptr))
           eq_refl).
Defined.



(** ** Invocation after a copy assignment *)


Lemma Calls_map_buckets (g : Call -> Call) (m : CallMap.t) :
  flat_map snd (map (fun b : Z * USet.t => (fst b, map g (snd b))) m)
  = map g (flat_map snd m).
Proof.
  induction m as [|[k s] m IH]; simpl; [reflexivity|]. now rewrite IH, map_app.
Qed.




(** ** The hash of a call *)

Lemma ReplaceBound_rebind (toReplace : uintptr_t) (e : Event) :
  callList_ (ReplaceBound toReplace e)
  = map (fun b => (fst b, map (rebind toReplace (boundTo e)) (snd b))) (callList_ e).
Proof. reflexivity. Qed.

(** X13. Whatever [std::hash] is, [CallHash] agrees with
    [Call::operator==]: two calls that compare equal have the same hash.
    And [ReplaceBound], which rewrites owners inside the sets, changes
    neither the handle nor the hash of any call, so no element of a set is
    left in a wrong place. *)
Theorem CallHash_agrees_with_equality (hash_Priority hash_Identifier hash_uintptr_t : Z -> Z) :
  (forall c d,
     Internal.eqb c d = true ->
     CallHash hash_Priority hash_Identifier hash_uintptr_t c
     = CallHash hash_Priority hash_Identifier hash_uintptr_t d) /\
  (forall toReplace e,
     map handle (Calls (ReplaceBound toReplace e)) = map handle (Calls e) /\
     map (CallHash hash_Priority hash_Identifier hash_uintptr_t)
         (Calls (ReplaceBound toReplace e))
     = map (CallHash hash_Priority hash_Identifier hash_uintptr_t) (Calls e)).
Proof.
  split.
  - intros c d E. apply EventHandle_eqb_eq in E. unfold CallHash. now rewrite E.
  - intros a e. unfold Calls. rewrite ReplaceBound_rebind, Calls_map_buckets, !map_map.
    split; apply map_ext; intros c.
    + apply rebind_handle.
    + unfold CallHash. now rewrite rebind_handle.
Qed.

Lemma CallHash_agrees_with_equality_witness :
  class_ptr example_call <> class_ptr example_call_rebound /\
  CallHash size_t size_t size_t example_call
  = CallHash size_t size_t size_t example_call_rebound.
Proof.
  split; [discriminate|].
  apply (proj1 (CallHash_agrees_with_equality size_t size_t size_t)). reflexivity.
Defined.

(** ** Registrations at different priorities *)

Lemma set_comm (k k' : Z) (v w : USet.t) (m : CallMap.t) :
  k <> k' ->
  CallMap.set k v (CallMap.set k' w m) = CallMap.set k' w (CallMap.set k v m).
Proof.
  intros N. induction m as [|[k0 s0] m IH]; simpl.
  - destruct (Z.ltb_spec k k'), (Z.ltb_spec k' k), (Z.eqb_spec k k'), (Z.eqb_spec k' k);
      try lia; reflexivity.
  - destruct (Z.ltb_spec k' k0), (Z.ltb_spec k k0), (Z.eqb_spec k' k0), (Z.eqb_spec k k0);
      try lia; simpl;
      destruct (Z.ltb_spec k k'), (Z.ltb_spec k' k), (Z.eqb_spec k k'), (Z.eqb_spec k' k),
               (Z.ltb_spec k' k0), (Z.ltb_spec k k0), (Z.eqb_spec k' k0), (Z.eqb_spec k k0);
      try lia; try reflexivity; now rewrite IH.
Qed.

(** X14. In explicit-priority mode two registrations at different
    priorities can be made in either order: both orders succeed together,
    return the same handles and leave the same registry. *)
Theorem Hook_commutes
  (P Q : Z) (f g : Callable) (e : Event) (h1 h2 : EventHandle.t) (e1 e2 : Event) :
  P <> Q ->
  Hook false P f e = Ok (h1, e1) -> Hook false Q g e1 = Ok (h2, e2) ->
  exists e1', Hook false Q g e = Ok (h2, e1') /\ Hook false P f e1' = Ok (h1, e2).
Proof.
  intros N H1 H2.
  apply Hook_Ok in H1. destruct H1 as (I & -> & N1 & ->).
  apply Hook_Ok in H2. destruct H2 as (_ & -> & N2 & ->).
  unfold hook_priority, hook_counter in *. cbn [callList_ boundTo priority_] in *.
  rewrite at_key_set in N2 |- *.
  destruct (Z.eqb_spec Q P) as [E|_]; [congruence|].
  eexists. split.
  - apply Hook_Ok. unfold hook_priority, hook_counter.
    split; [exact I|]. split; [reflexivity|]. split; [exact N2 | reflexivity].
  - apply Hook_Ok. unfold hook_priority, hook_counter. cbn [callList_ boundTo priority_].
    rewrite at_key_set. destruct (Z.eqb_spec P Q) as [E|_]; [congruence|].
    split; [reflexivity|]. split; [reflexivity|]. split; [exact N1|].
    f_equal. apply set_comm. congruence.
Qed.

Lemma Hook_commutes_witness :
  exists h1 e1 h2 e2 e1',
    Hook false 5 (function_pointer 4096) (Event_bound nullptr) = Ok (h1, e1) /\
    Hook false 1 (function_pointer 4112) e1 = Ok (h2, e2) /\
    Hook false 1 (function_pointer 4112) (Event_bound nullptr) = Ok (h2, e1') /\
    Hook false 5 (function_pointer 4096) e1' = Ok (h1, e2).
Proof.
  eexists. eexists. eexists. eexists.
  destruct (Hook_commutes 5 1 (function_pointer 4096) (function_pointer 4112)
              (Event_bound nullptr) _ _ _ _
              ltac:(discriminate) eq_refl eq_refl) as (e1' & A & B).
  exists e1'. split; [reflexivity|]. split; [reflexivity|]. split; [exact A | exact B].
Defined.
